(** * opynions: opinion dynamics on an adaptive network

    A shallow embedding of [opynions/core/simulation.py] and
    [opynions/analysis/multiprocessing.py].

    Conventions of the embedding:
    - Python floats that hold opinions, [mu] and [epsilon] are exact
      rationals ([Q]); comparisons are the decidable order of [Q].
    - A Python call either returns or raises: [res A].
    - [networkx] graphs are objects in a store; node attribute dictionaries
      are objects of their own, as in [networkx].
    - The [random] module is a tape of draws that the run consumes. *)

From Stdlib Require Import ZArith QArith Qabs Qminmax Lia Lqa.
From stdpp Require Import gmap strings list fin_maps.

(** ** Exceptions and results *)

Inductive exn : Type :=
  | AssertionError (msg : string)
  | TypeError
  | UnboundLocalError
  | KeyError
  | IndexError
  | ValueError
  | NetworkXError
  | OtherError (msg : string).

Inductive res (A : Type) : Type :=
  | Ret (a : A)
  | Raise (e : exn).
Arguments Ret {A} a.
Arguments Raise {A} e.

Definition res_bind {A B} (m : res A) (k : A → res B) : res B :=
  match m with
  | Ret a => k a
  | Raise e => Raise e
  end.

Definition is_assertion_error {A} (r : res A) : Prop :=
  match r with
  | Raise (AssertionError _) => True
  | _ => False
  end.

(** Decidable comparisons of rationals, as Python's [<] and [<=]. *)
Definition Qltb (x y : Q) : bool := negb (Qle_bool y x).
Definition Qleb (x y : Q) : bool := Qle_bool x y.

(** ** The opinion adjustment rule ([simulation.py], lines 8-54) *)

Module Opinion.

Local Open Scope Q_scope.

(** [rho]: the [assert], then three [if]s; a run that falls through all
    three returns Python's [None]. *)
Definition rho (x : Q) : res (option Z) :=
  if Qleb (-1) x && Qleb x 1 then
    if Qleb (-1) x && Qltb x (-(1#2)) then Ret (Some (-1)%Z)
    else if Qleb (-(1#2)) x && Qleb x (1#2) then Ret (Some 0%Z)
    else if Qltb (1#2) x && Qleb x 1 then Ret (Some 1%Z)
    else Ret None
  else Raise (AssertionError "x is out of bounds [-1, 1]").

(** [float - rho(...)]: subtracting [None] from a float is a [TypeError]. *)
Definition sub_rho (x : Q) (r : option Z) : res Q :=
  match r with
  | Some k => Ret (x - inject_Z k)
  | None => Raise TypeError
  end.

(** [max(0, min(1, v))] *)
Definition clamp01 (v : Q) : Q := Qmax 0 (Qmin 1 v).

(** The two [if]s of [UCM_adjust_opinion] are sequential: [i_new] and
    [j_new] are unbound until one of them assigns. *)
Definition UCM_adjust_opinion (i j mu epsilon : Q) : res (Q * Q) :=
  if negb (Qleb 0 i && Qleb i 1) then Raise (AssertionError "Opinion i is out of bounds")
  else if negb (Qleb 0 j && Qleb j 1) then Raise (AssertionError "Opinion j is out of bounds")
  else
    let i_min_j := i - j in
    res_bind (rho (i - j)) (λ r1,
    res_bind (sub_rho i_min_j r1) (λ alt_dist,
    let abs_alt_dist := Qabs alt_dist in
    let j_min_i := j - i in
    let new0 : option (Q * Q) := None in
    let new1 :=
      if Qltb abs_alt_dist epsilon
      then Some (i + mu * j_min_i, j + mu * i_min_j)
      else new0 in
    res_bind
      (if Qleb epsilon abs_alt_dist then
         res_bind (rho (j - i)) (λ r2,
         res_bind (sub_rho j_min_i r2) (λ rep,
         let i_new := i - mu * rep in
         let j_new := j - mu * alt_dist in
         Ret (Some (clamp01 i_new, clamp01 j_new))))
       else Ret new1)
      (λ new2,
       match new2 with
       | Some p => Ret p
       | None => Raise UnboundLocalError
       end))).

(** The periodic distance [x - y - rho(x - y)] that [UCM_adjust_opinion]
    computes for [(i, j)] (line 38) and for [(j, i)] (line 47). *)
Definition periodic_dist (x y : Q) : res Q :=
  res_bind (rho (x - y)) (sub_rho (x - y)).

(** The rewire test of [run_sim]: [abs(i_new - j_new) > epsilon]. *)
Definition rewire_cond (i_new j_new epsilon : Q) : bool :=
  Qltb epsilon (Qabs (i_new - j_new)).

End Opinion.

(** ** Python numbers

    [run_sim] receives [N] and [T] from its caller as Python numbers: an
    [int] or a [float]. *)

Inductive py_num : Type :=
  | PyInt (z : Z)
  | PyFloat (q : Q).

(** [isinstance(x, int)] *)
Definition isinstance_int (x : py_num) : bool :=
  match x with
  | PyInt _ => true
  | PyFloat _ => false
  end.

(** [x > k] for an [int] k *)
Definition py_gt_int (x : py_num) (k : Z) : bool :=
  match x with
  | PyInt z => (k <? z)%Z
  | PyFloat q => Qltb (inject_Z k) q
  end.

(** ** The store, the random tape and the monad of a run *)

Definition loc := nat.

(** A [networkx.Graph]: [_node] is a dictionary, kept in insertion order,
    from a node to its attribute dictionary, an object of its own; the
    adjacency is the set of edges, an undirected edge being the ordered
    pair of its end points. *)
Record graph_obj : Type := GraphObj {
  g_node : list (nat * loc);
  g_adj : gset (nat * nat)
}.

(** [_node[n]] *)
Fixpoint node_loc (n : nat) (ns : list (nat * loc)) : option loc :=
  match ns with
  | [] => None
  | p :: ns' => if decide (p.1 = n) then Some p.2 else node_loc n ns'
  end.

Inductive obj : Type :=
  | ODict (d : gmap string Q)
  | OGraph (G : graph_obj).

Record state : Type := State {
  heap : gmap loc obj;
  ints : list nat;
  reals : list Q
}.

(** A computation returns, raises, or finds the random tape exhausted. *)
Inductive outcome (A : Type) : Type :=
  | Done (a : A) (s : state)
  | Fail (e : exn)
  | Starved.
Arguments Done {A} a s.
Arguments Fail {A} e.
Arguments Starved {A}.

Definition M (A : Type) : Type := state → outcome A.

Definition ret {A} (a : A) : M A := λ s, Done a s.
Definition bind {A B} (m : M A) (k : A → M B) : M B :=
  λ s, match m s with
       | Done a s' => k a s'
       | Fail e => Fail e
       | Starved => Starved
       end.
Definition raise {A} (e : exn) : M A := λ _, Fail e.
Definition lift {A} (r : res A) : M A :=
  match r with
  | Ret a => ret a
  | Raise e => raise e
  end.

Declare Scope run_scope.
Delimit Scope run_scope with run.
Notation "x <- m ;; k" := (bind m (λ x, k))
  (at level 100, m at next level, right associativity) : run_scope.
Notation "m ;;; k" := (bind m (λ _, k))
  (at level 100, right associativity) : run_scope.
Local Open Scope run_scope.

Fixpoint for_each {A} (l : list A) (body : A → M unit) : M unit :=
  match l with
  | [] => ret tt
  | x :: l' => body x ;;; for_each l' body
  end.

Fixpoint map_m {A B} (f : A → M B) (l : list A) : M (list B) :=
  match l with
  | [] => ret []
  | x :: l' => y <- f x ;; ys <- map_m f l' ;; ret (y :: ys)
  end.

(** *** The store *)

Definition set_heap (h : gmap loc obj) (s : state) : state :=
  State h (ints s) (reals s).

Definition alloc (o : obj) : M loc :=
  λ s, let l := fresh (dom (heap s)) in
       Done l (set_heap (<[l:=o]> (heap s)) s).

Definition get_graph (g : loc) : M graph_obj :=
  λ s, match heap s !! g with
       | Some (OGraph G) => Done G s
       | _ => Fail TypeError
       end.

Definition put_graph (g : loc) (G : graph_obj) : M unit :=
  λ s, Done tt (set_heap (<[g:=OGraph G]> (heap s)) s).

Definition get_dict (l : loc) : M (gmap string Q) :=
  λ s, match heap s !! l with
       | Some (ODict d) => Done d s
       | _ => Fail TypeError
       end.

Definition put_dict (l : loc) (d : gmap string Q) : M unit :=
  λ s, Done tt (set_heap (<[l:=ODict d]> (heap s)) s).

(** *** The [random] module *)

Definition draw_int : M nat :=
  λ s, match ints s with
       | [] => Starved
       | r :: t => Done r (State (heap s) t (reals s))
       end.

Definition draw_real : M Q :=
  λ s, match reals s with
       | [] => Starved
       | r :: t => Done r (State (heap s) (ints s) t)
       end.

(** [random.uniform(a, b)] is [a + (b - a) * random()]. *)
Definition random_uniform (a b : Q) : M Q :=
  r <- draw_real ;; ret (a + (b - a) * r)%Q.

(** [random.choice(seq)]: [IndexError] on an empty sequence. *)
Definition random_choice (l : list nat) : M nat :=
  match l with
  | [] => raise IndexError
  | x :: _ => r <- draw_int ;; ret (nth (r mod length l) l x)
  end.

(** [random.shuffle(x)]: for i from [len(x) - 1] down to 1, swap [x[i]]
    with [x[j]], j drawn below i + 1. *)
Definition swap (l : list nat) (i j : nat) : list nat :=
  match l !! i, l !! j with
  | Some a, Some b => <[i:=b]> (<[j:=a]> l)
  | _, _ => l
  end.

Fixpoint shuffle_from (i : nat) (l : list nat) : M (list nat) :=
  match i with
  | O => ret l
  | S i' => r <- draw_int ;; shuffle_from i' (swap l i (r mod (S i)))
  end.

Definition random_shuffle (l : list nat) : M (list nat) :=
  shuffle_from (length l - 1) l.

(** ** [networkx] (the part of its interface that [simulation.py] calls) *)

Module Nx.

(** The undirected edge between u and v. *)
Definition edge (u v : nat) : nat * nat :=
  if (u <=? v)%nat then (u, v) else (v, u).

(** The other end of [e] when n is one of its ends. *)
Definition incident (n : nat) (e : nat * nat) : option nat :=
  if decide (e.1 = n) then Some e.2
  else if decide (e.2 = n) then Some e.1
  else None.

(** [list(G.nodes())] *)
Definition nodes (g : loc) : M (list nat) :=
  G <- get_graph g ;; ret (map fst (g_node G)).

(** [list(G.neighbors(n))]: [NetworkXError] when n is not a node.  The
    list comes in the order of the edge set; [random.choice] picks from it
    by a draw of the tape, so every neighbor can be picked. *)
Definition neighbors (g : loc) (n : nat) : M (list nat) :=
  G <- get_graph g ;;
  match node_loc n (g_node G) with
  | None => raise NetworkXError
  | Some _ => ret (omap (incident n) (elements (g_adj G)))
  end.

(** [G.nodes[n][key]] *)
Definition get_attr (g : loc) (n : nat) (key : string) : M Q :=
  G <- get_graph g ;;
  match node_loc n (g_node G) with
  | None => raise KeyError
  | Some l =>
      d <- get_dict l ;;
      match d !! key with
      | None => raise KeyError
      | Some v => ret v
      end
  end.

(** [G.nodes[n][key] = v] *)
Definition set_attr (g : loc) (n : nat) (key : string) (v : Q) : M unit :=
  G <- get_graph g ;;
  match node_loc n (g_node G) with
  | None => raise KeyError
  | Some l => d <- get_dict l ;; put_dict l (<[key:=v]> d)
  end.

(** [G.add_node(n)]: a new node gets an attribute dictionary of its own. *)
Definition add_node (g : loc) (n : nat) : M unit :=
  G <- get_graph g ;;
  match node_loc n (g_node G) with
  | Some _ => ret tt
  | None =>
      l <- alloc (ODict ∅) ;;
      put_graph g (GraphObj (g_node G ++ [(n, l)]) (g_adj G))
  end.

(** [G.add_edge(u, v)]: adds the end points that are not nodes yet. *)
Definition add_edge (g : loc) (u v : nat) : M unit :=
  add_node g u ;;;
  add_node g v ;;;
  G <- get_graph g ;;
  put_graph g (GraphObj (g_node G) (g_adj G ∪ {[edge u v]})).

(** [G.remove_edge(u, v)]: [NetworkXError] when the edge is absent. *)
Definition remove_edge (g : loc) (u v : nat) : M unit :=
  G <- get_graph g ;;
  if decide (edge u v ∈ g_adj G)
  then put_graph g (GraphObj (g_node G) (g_adj G ∖ {[edge u v]}))
  else raise NetworkXError.

(** [G.copy()]: a new graph object; every node attribute dictionary is
    copied into a new dictionary, the edges into a new adjacency. *)
Definition copy_node (p : nat * loc) : M (nat * loc) :=
  d <- get_dict p.2 ;; l <- alloc (ODict d) ;; ret (p.1, l).

Definition copy (g : loc) : M loc :=
  G <- get_graph g ;;
  ns <- map_m copy_node (g_node G) ;;
  alloc (OGraph (GraphObj ns (g_adj G))).

(** [nx.set_node_attributes(G, values, name)]: nodes of [values] that
    the graph does not have are skipped. *)
Definition set_node_attributes (g : loc) (values : list (nat * Q))
    (name : string) : M unit :=
  for_each values (λ nv,
    G <- get_graph g ;;
    match node_loc nv.1 (g_node G) with
    | None => ret tt
    | Some l => d <- get_dict l ;; put_dict l (<[name:=nv.2]> d)
    end).

(** The graph object that a generator returns for [n] nodes and the edge
    list [es]. *)
Definition build (n : nat) (es : list (nat * nat)) : M loc :=
  g <- alloc (OGraph (GraphObj [] ∅)) ;;
  for_each (seq 0 n) (add_node g) ;;;
  for_each es (λ e, add_edge g e.1 e.2) ;;;
  ret g.

End Nx.

(** ** The simulation ([simulation.py], lines 56-117) *)

Module Sim.

Import Opinion.

(** The four assertions that open [run_sim].  In Python [&] binds tighter
    than [>]: [N > 1 & isinstance(N, int)] is [N > (1 & isinstance(N, int))],
    and [1 & True] is 1, [1 & False] is 0. *)
Definition run_sim_checks (N T : py_num) (epsilon mu : Q) : res unit :=
  if negb (py_gt_int N (Z.land 1 (Z.b2z (isinstance_int N))))
  then Raise (AssertionError "N has to be an integer greater than 1")
  else if negb (py_gt_int T (Z.land 1 (Z.b2z (isinstance_int T))))
  then Raise (AssertionError "T has to be an integer greater than 1")
  else if negb (Qleb 0 mu && Qleb mu 1)
  then Raise (AssertionError "mu out of bounds [0,1]")
  else if negb (Qleb 0 epsilon && Qleb epsilon 1)
  then Raise (AssertionError "epsilon out of bounds [0,1]")
  else Ret tt.

(** [range(T)]: a [float] is a [TypeError]. *)
Definition py_range (T : py_num) : M (list nat) :=
  match T with
  | PyInt z => ret (seq 0 (Z.to_nat z))
  | PyFloat _ => raise TypeError
  end.

Section WithGenerator.

(** [nx.barabasi_albert_graph(N, m_ba)] is outside this repository: what
    it returns in a run is the number of nodes and the edge list of the
    generated graph, or an exception. *)
Variable barabasi_albert_graph : py_num → Z → res (nat * list (nat * nat)).

Definition initialize_graph (N : py_num) (m_ba : Z) : M loc :=
  t <- lift (barabasi_albert_graph N m_ba) ;;
  g <- Nx.build t.1 t.2 ;;
  ns <- Nx.nodes g ;;
  opinions <- map_m (λ node, r <- random_uniform 0 1 ;; ret (node, r)) ns ;;
  Nx.set_node_attributes g opinions "opinion" ;;;
  ret g.

(** The [while new_neighbor == node] loop: every turn consumes one draw,
    so the draws left on the tape bound its turns. *)
Fixpoint redraw_loop (turns : nat) (g : loc) (node new_neighbor : nat)
    : M nat :=
  if decide (new_neighbor = node) then
    match turns with
    | O => λ _, Starved
    | S turns' =>
        ns <- Nx.nodes g ;;
        w <- random_choice ns ;;
        redraw_loop turns' g node w
    end
  else ret new_neighbor.

Definition redraw (g : loc) (node new_neighbor : nat) : M nat :=
  λ s, redraw_loop (length (ints s)) g node new_neighbor s.

(** Lines 114-115. *)
Definition rewire (g : loc) (node neighbor new_neighbor : nat) : M unit :=
  Nx.remove_edge g node neighbor ;;;
  Nx.add_edge g node new_neighbor.

(** The body of the loop over the shuffled nodes (lines 96-115). *)
Definition process_node (g : loc) (epsilon mu : Q) (node : nat) : M unit :=
  nbrs <- Nx.neighbors g node ;;
  match nbrs with
  | [] => ret tt
  | _ :: _ =>
      nbrs' <- Nx.neighbors g node ;;
      neighbor <- random_choice nbrs' ;;
      i <- Nx.get_attr g node "opinion" ;;
      j <- Nx.get_attr g neighbor "opinion" ;;
      new <- lift (UCM_adjust_opinion i j mu epsilon) ;;
      Nx.set_attr g node "opinion" new.1 ;;;
      Nx.set_attr g neighbor "opinion" new.2 ;;;
      if rewire_cond new.1 new.2 epsilon then
        ns <- Nx.nodes g ;;
        w <- random_choice ns ;;
        new_neighbor <- redraw g node w ;;
        rewire g node neighbor new_neighbor
      else ret tt
  end.

(** One time step (lines 93-115). *)
Definition sweep (g : loc) (epsilon mu : Q) : M unit :=
  ns <- Nx.nodes g ;;
  order <- random_shuffle ns ;;
  for_each order (process_node g epsilon mu).

Definition time_loop (g : loc) (epsilon mu : Q) (ts : list nat) : M unit :=
  for_each ts (λ _, sweep g epsilon mu).

Definition run_sim (N T : py_num) (epsilon mu : Q) (m_ba : Z)
    : M (loc * loc) :=
  lift (run_sim_checks N T epsilon mu) ;;;
  g <- initialize_graph N m_ba ;;
  g_init <- Nx.copy g ;;
  ts <- py_range T ;;
  time_loop g epsilon mu ts ;;;
  ret (g, g_init).

End WithGenerator.

(** What a returned graph holds: the attribute dictionary of every node,
    and the edges. *)
Definition dict_at (h : gmap loc obj) (l : loc) : option (gmap string Q) :=
  match h !! l with
  | Some (ODict d) => Some d
  | _ => None
  end.

Definition graph_view (h : gmap loc obj) (g : loc)
    : option (list (nat * option (gmap string Q)) * gset (nat * nat)) :=
  match h !! g with
  | Some (OGraph G) =>
      Some (map (λ p, (p.1, dict_at h p.2)) (g_node G), g_adj G)
  | _ => None
  end.

(** A generator that returns the path 0 - 1 - ... - (N-1). *)
Definition path_generator (N : py_num) (m_ba : Z)
    : res (nat * list (nat * nat)) :=
  match N with
  | PyInt z => Ret (Z.to_nat z, map (λ k, (k, S k)) (seq 0 (Z.to_nat z - 1)))
  | PyFloat _ => Raise TypeError
  end.

(** A run of the scenario of four nodes on a path with opinions
    0.1, 0.9, 0.5, 0.5. *)
Definition scenario_state (draws : list nat) : state :=
  State ∅ draws [1#10; 9#10; 1#2; 1#2]%Q.

(** The state in which a computation returns ([s0] when it does not). *)
Definition final_state {A} (s0 : state) (o : outcome A) : state :=
  match o with
  | Done _ s => s
  | _ => s0
  end.

(** Two time steps on the path of four nodes with epsilon = 0.1 and
    mu = 0.5. *)
Definition scenario_draws : list nat := seq 0 31.

Definition scenario_run : outcome (loc * loc) :=
  run_sim path_generator (PyInt 4) (PyInt 2) (1#10) (1#2) 2
    (scenario_state scenario_draws).

Definition scenario_final : state :=
  final_state (scenario_state scenario_draws) scenario_run.

(** A caller's state with three uniform draws left and no graph yet. *)
Definition fresh_state : state := State ∅ [] [1#10; 2#10; 3#10]%Q.

(** The path of four nodes right after [initialize_graph]. *)
Definition scenario_start : state :=
  final_state (scenario_state [])
    (initialize_graph path_generator (PyInt 4) 2 (scenario_state [O])).

(** The graph 0 - 1 with opinions 0.2 and 0.7, as [initialize_graph]
    leaves it. *)
Definition pair_state : state :=
  final_state (State ∅ [] [])
    (initialize_graph path_generator (PyInt 2) 2
       (State ∅ [] [2#10; 7#10]%Q)).

End Sim.

(** ** The parameter sweep ([multiprocessing.py], lines 9-40) *)

Module Sweep.

(** [pool.starmap(f, args)]: the results in the order of [args]; when a
    task raises, [starmap] raises and returns no list (the exception it
    re-raises is that of a failing task, here the first of them). *)
Fixpoint starmap {A B} (f : A → res B) (args : list A) : res (list B) :=
  match args with
  | [] => Ret []
  | a :: args' =>
      res_bind (f a) (λ b,
      res_bind (starmap f args') (λ bs, Ret (b :: bs)))
  end.

Section WithAnalysis.

(** [combined_analysis(n_runs, n_nodes, time_steps, epsilon, mu, m_ba)]
    lives in [opynions/analysis/combined.py], outside the two modules
    embedded here: what it returns, a dictionary of named scalars, or
    raises, is a parameter. *)
Variable combined_analysis :
  nat → nat → nat → Q → Q → nat → res (gmap string Q).

(** [mp.cpu_count()] *)
Variable cpu_count : nat.

Definition worker_all_both_params (epsilon mu : Q)
    (n_runs n_nodes time_steps m_ba : nat) : res (gmap string Q) :=
  res_bind (combined_analysis n_runs n_nodes time_steps epsilon mu m_ba)
    (λ results_dict,
     let results_dict := <["epsilon":=epsilon]> results_dict in
     let results_dict := <["mu":=mu]> results_dict in
     Ret results_dict).

(** [mp.Pool(processes)] refuses fewer than one process. *)
Definition multiprocess_all (epsilon_values mu_values : list Q)
    (n_runs n_nodes time_steps m_ba : nat) : res (list (gmap string Q)) :=
  let param_grid := list_prod epsilon_values mu_values in
  let num_workers := Nat.min cpu_count (length param_grid) in
  if (num_workers <? 1)%nat then Raise ValueError
  else
    starmap
      (λ p, worker_all_both_params p.1 p.2 n_runs n_nodes time_steps m_ba)
      param_grid.

End WithAnalysis.

(** The parameter point that a record carries. *)
Definition record_key (d : gmap string Q) : option Q * option Q :=
  (d !! "epsilon", d !! "mu").

(** An analysis that returns a variance for every parameter point. *)
Definition constant_analysis (n_runs n_nodes time_steps : nat)
    (epsilon mu : Q) (m_ba : nat) : res (gmap string Q) :=
  Ret {["variance" := (1#12)%Q]}.

(** An analysis that fails at the one parameter point
    epsilon = 0.5, mu = 0.5, and only there. *)
Definition analysis_failing_at_half (n_runs n_nodes time_steps : nat)
    (epsilon mu : Q) (m_ba : nat) : res (gmap string Q) :=
  if Qeq_bool epsilon (1#2) && Qeq_bool mu (1#2)
  then Raise (OtherError "run failed")
  else Ret {["variance" := (1#12)%Q]}.

End Sweep.

(** ** The variance sweep ([multiprocessing.py], lines 42-52) *)

Module Variance.

Section WithVariance.

(** [opinions_variance(n_runs, n_nodes, time_steps, epsilon, mu, m_ba=m_ba)]
    lives in [opynions/analysis/distribution.py], outside the modules
    embedded here: the variance it returns, or the exception it raises, is
    a parameter. *)
Variable opinions_variance : nat → nat → nat → Q → Q → nat → res Q.

(** [mp.cpu_count()] *)
Variable cpu_count : nat.

Definition worker_variance_epsilons (epsilon : Q) (m_ba : nat) : res Q :=
  res_bind (opinions_variance 10 200 100 epsilon (48#100)%Q m_ba)
    (λ variance, Ret variance).

Definition multiprocess_variance_epsilon (epsilon_values : list Q)
    (m_ba : nat) : res (list Q) :=
  let num_workers := Nat.min cpu_count (length epsilon_values) in
  if (num_workers <? 1)%nat then Raise ValueError
  else
    Sweep.starmap (λ epsilon, worker_variance_epsilons epsilon m_ba)
      epsilon_values.

End WithVariance.

(** A variance that grows with epsilon and fails for a negative one. *)
Definition sample_variance (n_runs n_nodes time_steps : nat)
    (epsilon mu : Q) (m_ba : nat) : res Q :=
  if Qltb epsilon 0 then Raise ValueError else Ret (epsilon * mu)%Q.

End Variance.

(** ** Further states for examples *)

(** A graph of the one node 0, with opinion 0.5 and no edge, as
    [initialize_graph] leaves it. *)
Definition lone_state : state :=
  Sim.final_state (State ∅ [] [])
    (Sim.initialize_graph Sim.path_generator (PyInt 1) 2
       (State ∅ [] [1#2]%Q)).

(** ** Vocabulary of the properties *)

(** In [s] the object at [g] is the graph [G]. *)
Definition graph_at (s : state) (g : loc) (G : graph_obj) : Prop :=
  heap s !! g = Some (OGraph G).

(** A simple graph: every edge joins two distinct nodes of the graph. *)
Definition simple (G : graph_obj) : Prop :=
  ∀ u v, (u, v) ∈ g_adj G →
    u ≠ v ∧ u ∈ map fst (g_node G) ∧ v ∈ map fst (g_node G).

(** The objects of a graph: the graph object and the attribute
    dictionaries of its nodes. *)
Definition footprint (g : loc) (G : graph_obj) (l : loc) : Prop :=
  l = g ∨ l ∈ map snd (g_node G).

(** From [s] to [s'] the graph [g] keeps its nodes and their
    dictionaries' identities, gains no edge in number, stays simple, and
    nothing outside its objects changes. *)
Definition evolves (g : loc) (s s' : state) : Prop :=
  ∃ G G', graph_at s g G ∧ graph_at s' g G' ∧
    g_node G' = g_node G ∧
    size (g_adj G') ≤ size (g_adj G) ∧
    (simple G → simple G') ∧
    ∀ l, ¬ footprint g G l → heap s' !! l = heap s !! l.

(** Every node of the graph has its attribute dictionary in the store. *)
Definition dicts_ok (s : state) (G : graph_obj) : Prop :=
  ∀ l, l ∈ map snd (g_node G) → is_Some (Sim.dict_at (heap s) l).

(** What a generator may return for n nodes: edges between distinct
    nodes below n. *)
Definition valid_edges (n : nat) (es : list (nat * nat)) : Prop :=
  ∀ u v, (u, v) ∈ es → u ≠ v ∧ u < n ∧ v < n.

(** The nodes of the graph are exactly 0 .. n-1 and every edge joins two
    distinct nodes below n. *)
Definition graph_ok (n : nat) (G : graph_obj) : Prop :=
  map fst (g_node G) = seq 0 n ∧
  ∀ u v, (u, v) ∈ g_adj G → u ≠ v ∧ u < n ∧ v < n.

(** The number of edges of the graph [g]. *)
Definition edge_count (s : state) (g : loc) : option nat :=
  match heap s !! g with
  | Some (OGraph G) => Some (size (g_adj G))
  | _ => None
  end.

(** The node n of the graph has an opinion in [0,1]: what
    [G.nodes[n]['opinion']] reads. *)
Definition node_opinion_ok (s : state) (G : graph_obj) (n : nat) : Prop :=
  ∃ l d o, node_loc n (g_node G) = Some l ∧
    heap s !! l = Some (ODict d) ∧ d !! "opinion" = Some o ∧
    (0 <= o <= 1)%Q.

(** Every node of the graph has an opinion in [0,1]. *)
Definition opinions_ok (s : state) (G : graph_obj) : Prop :=
  ∀ n, n ∈ map fst (g_node G) → node_opinion_ok s G n.

(** * Properties *)

(** ** Comparisons *)

Lemma Qltb_lt x y : Qltb x y = true ↔ (x < y)%Q.
Proof.
  unfold Qltb. rewrite negb_true_iff. split.
  - intros H. apply Qnot_le_lt. intros Hle.
    apply Qle_bool_iff in Hle. congruence.
  - intros H. destruct (Qle_bool y x) eqn:E; [|done].
    apply Qle_bool_iff in E. exfalso. eapply Qlt_not_le; eauto.
Qed.

Lemma Qleb_le x y : Qleb x y = true ↔ (x <= y)%Q.
Proof. apply Qle_bool_iff. Qed.

Lemma Qltb_ge x y : Qltb x y = false ↔ (y <= x)%Q.
Proof.
  unfold Qltb. rewrite negb_false_iff. apply Qle_bool_iff.
Qed.

Lemma Qleb_gt x y : Qleb x y = false ↔ (y < x)%Q.
Proof.
  rewrite <- Qltb_lt. unfold Qltb, Qleb.
  destruct (Qle_bool x y); simpl; split; congruence.
Qed.

(** Turn every boolean comparison of the goal into its proposition. *)
Ltac qcases :=
  repeat match goal with
  | |- context [Qltb ?a ?b] =>
      let E := fresh "E" in
      destruct (Qltb a b) eqn:E;
      [apply Qltb_lt in E | apply Qltb_ge in E]
  | |- context [Qleb ?a ?b] =>
      let E := fresh "E" in
      destruct (Qleb a b) eqn:E;
      [apply Qleb_le in E | apply Qleb_gt in E]
  end; simpl.

Section OpinionFacts.
Import Opinion.
Local Open Scope Q_scope.

Lemma rho_low x : -1 <= x < -(1#2) → rho x = Ret (Some (-1)%Z).
Proof. intros [H1 H2]. unfold rho. qcases; try reflexivity; lra. Qed.

Lemma rho_mid x : -(1#2) <= x <= 1#2 → rho x = Ret (Some 0%Z).
Proof. intros [H1 H2]. unfold rho. qcases; try reflexivity; lra. Qed.

Lemma rho_high x : 1#2 < x <= 1 → rho x = Ret (Some 1%Z).
Proof. intros [H1 H2]. unfold rho. qcases; try reflexivity; lra. Qed.

Lemma rho_outside x : x < -1 ∨ 1 < x → is_assertion_error (rho x).
Proof. intros H. unfold rho. qcases; try exact I; lra. Qed.


Lemma rho_cases x :
  -1 <= x <= 1 →
  (x < -(1#2) ∧ rho x = Ret (Some (-1)%Z)) ∨
  (-(1#2) <= x <= 1#2 ∧ rho x = Ret (Some 0%Z)) ∨
  (1#2 < x ∧ rho x = Ret (Some 1%Z)).
Proof.
  intros [H1 H2].
  destruct (Qlt_le_dec x (-(1#2))) as [Hl|Hl].
  { left. split; [done|]. apply rho_low. lra. }
  destruct (Qlt_le_dec (1#2) x) as [Hh|Hh].
  { right; right. split; [done|]. apply rho_high. lra. }
  right; left. split; [lra|]. apply rho_mid. lra.
Qed.

Lemma clamp01_bounds v : 0 <= clamp01 v <= 1.
Proof.
  unfold clamp01. split.
  - apply Q.le_max_l.
  - apply Q.max_lub; [lra | apply Q.le_min_l].
Qed.

(** On opinions of the unit interval the rule is a plain case split on
    the periodic distance. *)
Lemma UCM_adjust_opinion_unfold i j mu epsilon k k' :
  0 <= i <= 1 → 0 <= j <= 1 →
  rho (i - j) = Ret (Some k) → rho (j - i) = Ret (Some k') →
  UCM_adjust_opinion i j mu epsilon =
    if Qltb (Qabs (i - j - inject_Z k)) epsilon
    then Ret (i + mu * (j - i), j + mu * (i - j))
    else Ret (clamp01 (i - mu * (j - i - inject_Z k')),
              clamp01 (j - mu * (i - j - inject_Z k))).
Proof.
  intros [Hi0 Hi1] [Hj0 Hj1] Hk Hk'. unfold UCM_adjust_opinion.
  apply Qleb_le in Hi0, Hi1, Hj0, Hj1.
  rewrite Hi0, Hi1, Hj0, Hj1, Hk, Hk'. cbn [res_bind sub_rho negb andb].
  unfold Qltb, Qleb.
  by destruct (Qle_bool epsilon (Qabs (i - j - inject_Z k))).
Qed.

Lemma rho_defined x :
  -1 <= x <= 1 → ∃ k, rho x = Ret (Some k) ∧ (k = (-1)%Z ∨ k = 0%Z ∨ k = 1%Z).
Proof.
  intros H. destruct (rho_cases x H) as [[_ E]|[[_ E]|[_ E]]]; eauto.
Qed.

(** [rho] is odd on its domain. *)
Lemma rho_opp x k :
  -1 <= x <= 1 → rho x = Ret (Some k) → rho (- x) = Ret (Some (- k)%Z).
Proof.
  intros H E.
  destruct (rho_cases x H) as [[Hx E']|[[Hx E']|[Hx E']]];
    rewrite E' in E; injection E as <-; simpl.
  - apply rho_high. lra.
  - apply rho_mid. lra.
  - apply rho_low. lra.
Qed.


(** C4: [rho] returns -1 on [-1,-0.5), 0 on [-0.5,0.5] and 1 on (0.5,1];
    it returns one of these three integers for every x of [-1,1], and
    fails its assertion for every x outside [-1,1]. *)
Theorem rho_classifier (x : Q) :
  (-1 <= x < -(1#2) → rho x = Ret (Some (-1)%Z)) ∧
  (-(1#2) <= x <= 1#2 → rho x = Ret (Some 0%Z)) ∧
  (1#2 < x <= 1 → rho x = Ret (Some 1%Z)) ∧
  (-1 <= x <= 1 →
     ∃ k, rho x = Ret (Some k) ∧ (k = (-1)%Z ∨ k = 0%Z ∨ k = 1%Z)) ∧
  (x < -1 ∨ 1 < x → is_assertion_error (rho x)).
Proof.
  repeat split.
  - apply rho_low.
  - apply rho_mid.
  - apply rho_high.
  - apply rho_defined.
  - apply rho_outside.
Qed.

Lemma rho_classifier_witness :
  rho (-(3#4)) = Ret (Some (-1)%Z) ∧
  rho (1#4) = Ret (Some 0%Z) ∧
  rho (3#4) = Ret (Some 1%Z) ∧
  (∃ k, rho (-(1#2)) = Ret (Some k) ∧ (k = (-1)%Z ∨ k = 0%Z ∨ k = 1%Z)) ∧
  is_assertion_error (rho (3#2)).
Proof.
  split; [|split; [|split; [|split]]].
  - apply (proj1 (rho_classifier (-(3#4)))). lra.
  - apply (proj1 (proj2 (rho_classifier (1#4)))). lra.
  - apply (proj1 (proj2 (proj2 (rho_classifier (3#4))))). lra.
  - apply (proj1 (proj2 (proj2 (proj2 (rho_classifier (-(1#2))))))). lra.
  - apply (proj2 (proj2 (proj2 (proj2 (rho_classifier (3#2)))))). right. lra.
Defined.

Lemma periodic_dist_eq x y k :
  rho (x - y) = Ret (Some k) → periodic_dist x y = Ret (x - y - inject_Z k).
Proof. intros E. unfold periodic_dist. by rewrite E. Qed.

(** C3: on opinions, [mu] and [epsilon] of the unit interval the rule
    returns a pair of the unit interval: the convex updates, unclamped,
    when the periodic distance is below [epsilon], and the clamped
    repulsion updates otherwise. *)
Theorem UCM_adjust_opinion_in_unit_interval (i j mu epsilon : Q) :
  0 <= i <= 1 → 0 <= j <= 1 → 0 <= mu <= 1 → 0 <= epsilon <= 1 →
  ∃ alt_dist rep i' j',
    periodic_dist i j = Ret alt_dist ∧
    periodic_dist j i = Ret rep ∧
    UCM_adjust_opinion i j mu epsilon = Ret (i', j') ∧
    (0 <= i' <= 1) ∧ (0 <= j' <= 1) ∧
    (Qabs alt_dist < epsilon →
       i' = i + mu * (j - i) ∧ j' = j + mu * (i - j)) ∧
    (epsilon <= Qabs alt_dist →
       i' = clamp01 (i - mu * rep) ∧ j' = clamp01 (j - mu * alt_dist)).
Proof.
  intros Hi Hj Hmu Heps.
  destruct (rho_defined (i - j)) as (k & Hk & _); [lra|].
  destruct (rho_defined (j - i)) as (k' & Hk' & _); [lra|].
  exists (i - j - inject_Z k), (j - i - inject_Z k').
  rewrite (periodic_dist_eq _ _ _ Hk), (periodic_dist_eq _ _ _ Hk').
  rewrite (UCM_adjust_opinion_unfold i j mu epsilon k k' Hi Hj Hk Hk').
  destruct (Qltb (Qabs (i - j - inject_Z k)) epsilon) eqn:E.
  - apply Qltb_lt in E. do 2 eexists.
    repeat split; try reflexivity; try nra; exfalso; lra.
  - apply Qltb_ge in E. do 2 eexists.
    repeat split; try reflexivity; try apply clamp01_bounds; exfalso; lra.
Qed.

Lemma UCM_adjust_opinion_in_unit_interval_witness :
  ∃ alt_dist rep i' j',
    periodic_dist (1#10) (9#10) = Ret alt_dist ∧
    periodic_dist (9#10) (1#10) = Ret rep ∧
    UCM_adjust_opinion (1#10) (9#10) (1#2) (1#10) = Ret (i', j') ∧
    (0 <= i' <= 1) ∧ (0 <= j' <= 1) ∧
    (Qabs alt_dist < 1#10 →
       i' = (1#10) + (1#2) * ((9#10) - (1#10)) ∧
       j' = (9#10) + (1#2) * ((1#10) - (9#10))) ∧
    ((1#10) <= Qabs alt_dist →
       i' = clamp01 ((1#10) - (1#2) * rep) ∧
       j' = clamp01 ((9#10) - (1#2) * alt_dist)).
Proof.
  apply (UCM_adjust_opinion_in_unit_interval (1#10) (9#10) (1#2) (1#10)); lra.
Defined.


(** C5: on i = 0.1, j = 0.9, mu = 0.5, epsilon = 0.3 the classifier of
    i - j = -0.8 is -1, the periodic distance is 0.2 < 0.3, the rule takes
    the assimilation branch and returns (0.5, 0.5), and the rewire test
    |0.5 - 0.5| > 0.3 is false. *)
Theorem UCM_adjust_opinion_scenario :
  rho ((1#10) - (9#10)) = Ret (Some (-1)%Z) ∧
  ∃ alt_dist i' j',
    periodic_dist (1#10) (9#10) = Ret alt_dist ∧
    alt_dist == 2#10 ∧ Qabs alt_dist < 3#10 ∧
    UCM_adjust_opinion (1#10) (9#10) (1#2) (3#10) = Ret (i', j') ∧
    i' = (1#10) + (1#2) * ((9#10) - (1#10)) ∧
    j' = (9#10) + (1#2) * ((1#10) - (9#10)) ∧
    i' == 1#2 ∧ j' == 1#2 ∧
    Qabs (i' - j') == 0 ∧
    rewire_cond i' j' (3#10) = false.
Proof.
  split; [reflexivity|].
  eexists _, _, _.
  split; [reflexivity|].
  split; [reflexivity|].
  split; [reflexivity|].
  split; [vm_compute; reflexivity|].
  repeat split.
Qed.

(** C6: when the assimilation branch applies to (i, j), the rule applied
    to (j, i) returns the swapped pair of its result on (i, j). *)
Theorem UCM_adjust_opinion_assimilation_swap (i j mu epsilon alt_dist : Q) :
  0 <= i <= 1 → 0 <= j <= 1 → 0 <= mu <= 1 → 0 <= epsilon <= 1 →
  periodic_dist i j = Ret alt_dist → Qabs alt_dist < epsilon →
  ∃ i' j',
    UCM_adjust_opinion i j mu epsilon = Ret (i', j') ∧
    UCM_adjust_opinion j i mu epsilon = Ret (j', i').
Proof.
  intros Hi Hj Hmu Heps Hd Hlt.
  destruct (rho_defined (i - j)) as (k & Hk & _); [lra|].
  assert (Hk' : rho (j - i) = Ret (Some (- k)%Z)).
  { assert (Hopp := rho_opp (i - j) k ltac:(lra) Hk).
    assert (Heq : rho (- (i - j)) = rho (j - i)); [|congruence].
    unfold rho. assert (Hx : - (i - j) == j - i) by ring.
    unfold Qleb, Qltb. by rewrite !Hx. }
  rewrite (periodic_dist_eq _ _ _ Hk) in Hd. injection Hd as <-.
  exists (i + mu * (j - i)), (j + mu * (i - j)).
  rewrite (UCM_adjust_opinion_unfold i j mu epsilon k (- k) Hi Hj Hk Hk').
  rewrite (UCM_adjust_opinion_unfold j i mu epsilon (- k) k Hj Hi Hk' Hk).
  assert (Habs : Qabs (j - i - inject_Z (- k)) == Qabs (i - j - inject_Z k)).
  { rewrite <- (Qabs_opp (i - j - inject_Z k)).
    apply Qabs_wd. rewrite inject_Z_opp. ring. }
  assert (E1 : Qltb (Qabs (i - j - inject_Z k)) epsilon = true)
    by by apply Qltb_lt.
  assert (E2 : Qltb (Qabs (j - i - inject_Z (- k))) epsilon = true)
    by (apply Qltb_lt; by rewrite Habs).
  by rewrite E1, E2.
Qed.

Lemma UCM_adjust_opinion_assimilation_swap_witness :
  ∃ i' j',
    UCM_adjust_opinion (1#10) (9#10) (1#2) (3#10) = Ret (i', j') ∧
    UCM_adjust_opinion (9#10) (1#10) (1#2) (3#10) = Ret (j', i').
Proof.
  apply (UCM_adjust_opinion_assimilation_swap
           (1#10) (9#10) (1#2) (3#10) ((1#10) - (9#10) - inject_Z (-1)));
    try lra.
  - reflexivity.
  - reflexivity.
Defined.

End OpinionFacts.

(** ** Runs: inversion of the monad and of the store operations *)

Local Open Scope run_scope.

Lemma bind_done {A B} (m : M A) (k : A → M B) s b s' :
  bind m k s = Done b s' → ∃ a s1, m s = Done a s1 ∧ k a s1 = Done b s'.
Proof. unfold bind. destruct (m s); [eauto|done..]. Qed.

Lemma ret_done {A} (a b : A) s s' : ret a s = Done b s' → b = a ∧ s' = s.
Proof. unfold ret. by intros [= -> ->]. Qed.

Lemma lift_done {A} (r : res A) a s s' :
  lift r s = Done a s' → r = Ret a ∧ s' = s.
Proof. destruct r; cbn; [by intros [= -> ->]|done]. Qed.

(** Open every [bind] of a run that is known to return. *)
Ltac run_inv H :=
  match type of H with
  | bind _ _ _ = Done _ _ =>
      let a := fresh "a" in let s1 := fresh "s" in
      let H1 := fresh "Hrun" in let H2 := fresh "Hrun" in
      apply bind_done in H as (a & s1 & H1 & H2); run_inv H2
  | ret _ _ = Done _ _ =>
      apply ret_done in H as [? ?]; subst
  | _ => idtac
  end.

(** Open the first [bind] of the run [H], which keeps its name for the
    rest of the run. *)
Tactic Notation "run_step" hyp(H) "as" ident(x) ident(s) ident(H1) :=
  apply bind_done in H as (x & s & H1 & H).

Lemma get_graph_done g s G s' :
  get_graph g s = Done G s' → s' = s ∧ graph_at s g G.
Proof.
  unfold get_graph, graph_at.
  destruct (heap s !! g) as [[|]|]; [done| |done]. by intros [= -> ->].
Qed.

Lemma get_dict_done l s d s' :
  get_dict l s = Done d s' → s' = s ∧ heap s !! l = Some (ODict d).
Proof.
  unfold get_dict.
  destruct (heap s !! l) as [[|]|]; [|done..]. by intros [= -> ->].
Qed.

Lemma draw_int_done s r s' :
  draw_int s = Done r s' →
  heap s' = heap s ∧ ints s = r :: ints s' ∧ reals s' = reals s.
Proof. unfold draw_int. destruct (ints s); [done|]. by intros [= -> <-]. Qed.

Lemma random_choice_done l s x s' :
  random_choice l s = Done x s' →
  x ∈ l ∧ heap s' = heap s ∧ length (ints s') < length (ints s).
Proof.
  destruct l as [|y l]; [done|]. cbn [random_choice]. intros H. run_inv H.
  apply draw_int_done in Hrun as (Hh & Hi & _). split; [|split; [done|]].
  - apply list_elem_of_In, nth_In, Nat.mod_upper_bound. done.
  - rewrite Hi. simpl. lia.
Qed.

Lemma node_loc_Some n l ns : node_loc n ns = Some l → (n, l) ∈ ns.
Proof.
  induction ns as [|[k v] ns IH]; [done|]. simpl. case_decide as Hk.
  - intros [= ->]. subst. left.
  - intros Hl. right. auto.
Qed.

Lemma node_loc_is_Some n ns : is_Some (node_loc n ns) ↔ n ∈ map fst ns.
Proof.
  induction ns as [|[k v] ns IH]; simpl.
  - split; [by intros [? ?]|by intros ?%elem_of_nil].
  - case_decide; subst.
    + split; [left|eauto].
    + rewrite IH. split; [by right|]. intros [?|?]%elem_of_cons; done.
Qed.

Lemma nodes_done g s l s' :
  Nx.nodes g s = Done l s' →
  s' = s ∧ ∃ G, graph_at s g G ∧ l = map fst (g_node G).
Proof.
  unfold Nx.nodes. intros H. run_inv H.
  apply get_graph_done in Hrun as [-> HG]. eauto.
Qed.

Lemma neighbors_done g n s l s' :
  Nx.neighbors g n s = Done l s' →
  s' = s ∧ ∃ G, graph_at s g G ∧ n ∈ map fst (g_node G) ∧
    l = omap (Nx.incident n) (elements (g_adj G)).
Proof.
  unfold Nx.neighbors. intros H. run_inv H.
  apply get_graph_done in Hrun as [-> HG].
  destruct (node_loc n (g_node a)) eqn:E; [|done].
  run_inv Hrun0. split; [done|]. exists a. split; [done|]. split; [|done].
  apply node_loc_is_Some. eauto.
Qed.

Lemma get_attr_done g n k s v s' : Nx.get_attr g n k s = Done v s' → s' = s.
Proof.
  unfold Nx.get_attr. intros H. run_inv H.
  apply get_graph_done in Hrun as [-> HG].
  destruct (node_loc n (g_node a)); [|done]. run_inv Hrun0.
  apply get_dict_done in Hrun as [-> _].
  destruct (a0 !! k); [|done]. by run_inv Hrun1.
Qed.

Lemma set_attr_done g n k v s s' :
  Nx.set_attr g n k v s = Done tt s' →
  ∃ G l d, graph_at s g G ∧ (n, l) ∈ g_node G ∧
    heap s !! l = Some (ODict d) ∧
    s' = set_heap (<[l:=ODict (<[k:=v]> d)]> (heap s)) s.
Proof.
  unfold Nx.set_attr. intros H. run_inv H.
  apply get_graph_done in Hrun as [-> HG].
  destruct (node_loc n (g_node a)) as [l|] eqn:E; [|done]. run_inv Hrun0.
  apply get_dict_done in Hrun as [-> Hd].
  unfold put_dict in Hrun1. injection Hrun1 as <-.
  exists a, l, a0. eauto using node_loc_Some.
Qed.

Lemma add_node_present g n s G :
  graph_at s g G → n ∈ map fst (g_node G) → Nx.add_node g n s = Done tt s.
Proof.
  unfold graph_at, Nx.add_node, bind, get_graph. intros -> Hn.
  apply node_loc_is_Some in Hn as [l ->]. done.
Qed.

Lemma add_node_absent g n s G :
  graph_at s g G → n ∉ map fst (g_node G) →
  Nx.add_node g n s =
    Done tt (set_heap
      (<[g:=OGraph (GraphObj (g_node G ++ [(n, fresh (dom (heap s)))])
                             (g_adj G))]>
         (<[fresh (dom (heap s)):=ODict ∅]> (heap s))) s).
Proof.
  unfold graph_at, Nx.add_node, bind, get_graph. intros -> Hn.
  destruct (node_loc n (g_node G)) eqn:E; [|done].
  exfalso. apply Hn, node_loc_is_Some. eauto.
Qed.

Lemma add_edge_present g u v s G :
  graph_at s g G → u ∈ map fst (g_node G) → v ∈ map fst (g_node G) →
  Nx.add_edge g u v s =
    Done tt (set_heap
      (<[g:=OGraph (GraphObj (g_node G) (g_adj G ∪ {[Nx.edge u v]}))]>
         (heap s)) s).
Proof.
  intros HG Hu Hv. unfold Nx.add_edge, bind.
  rewrite (add_node_present g u s G HG Hu), (add_node_present g v s G HG Hv).
  unfold get_graph. by rewrite HG.
Qed.

Lemma remove_edge_done g u v s s' :
  Nx.remove_edge g u v s = Done tt s' →
  ∃ G, graph_at s g G ∧ Nx.edge u v ∈ g_adj G ∧
    s' = set_heap
      (<[g:=OGraph (GraphObj (g_node G) (g_adj G ∖ {[Nx.edge u v]}))]>
         (heap s)) s.
Proof.
  unfold Nx.remove_edge. intros H. run_inv H.
  apply get_graph_done in Hrun as [-> HG].
  case_decide; [|done]. unfold put_graph in Hrun0. injection Hrun0 as <-.
  eauto.
Qed.

Lemma redraw_loop_done turns g node w s w' s' :
  Sim.redraw_loop turns g node w s = Done w' s' →
  heap s' = heap s ∧ w' ≠ node ∧
  (w' = w ∨ ∃ G, graph_at s g G ∧ w' ∈ map fst (g_node G)).
Proof.
  revert w s. induction turns as [|turns IH]; intros w s; simpl.
  - case_decide; [done|]. intros [-> ->]%ret_done. eauto.
  - case_decide.
    + intros Hr. run_inv Hr.
      apply nodes_done in Hrun as (-> & G & HG & ->).
      apply random_choice_done in Hrun1 as (Hin & Hh & _).
      apply IH in Hrun2 as (Hh' & Hne & Hw).
      split; [congruence|]. split; [done|]. right.
      destruct Hw as [->|(G' & HG' & Hin')]; [eauto|].
      unfold graph_at in *. rewrite Hh in HG'.
      exists G. split; [done|]. congruence.
    + intros [-> ->]%ret_done. eauto.
Qed.

Lemma redraw_done g node w s w' s' :
  Sim.redraw g node w s = Done w' s' →
  heap s' = heap s ∧ w' ≠ node ∧
  (w' = w ∨ ∃ G, graph_at s g G ∧ w' ∈ map fst (g_node G)).
Proof. apply redraw_loop_done. Qed.

(** ** How a graph evolves during a run *)

Lemma evolves_refl g s G : graph_at s g G → evolves g s s.
Proof. intros HG. exists G, G. eauto 10. Qed.

Lemma evolves_trans g s1 s2 s3 :
  evolves g s1 s2 → evolves g s2 s3 → evolves g s1 s3.
Proof.
  intros (G1 & G2 & H1 & H2 & Hn & Hsz & Hs & Hf)
         (G2' & G3 & H2' & H3 & Hn' & Hsz' & Hs' & Hf').
  unfold graph_at in *. assert (G2' = G2) as -> by congruence.
  exists G1, G3.
  split; [done|]. split; [done|]. split; [congruence|]. split; [lia|].
  split; [auto|].
  intros l Hl. rewrite Hf', Hf; [done..|].
  unfold footprint in *. by rewrite Hn.
Qed.

Lemma evolves_same_heap g s s' G :
  graph_at s g G → heap s' = heap s → evolves g s s'.
Proof.
  intros HG Hh. exists G, G. unfold graph_at in *. rewrite Hh. eauto 10.
Qed.

Lemma for_each_evolves {A} g (body : A → M unit) l s s' G :
  (∀ x s s', body x s = Done tt s' → evolves g s s') →
  graph_at s g G →
  for_each l body s = Done tt s' → evolves g s s'.
Proof.
  intros Hbody. revert s G. induction l as [|x l IH]; intros s G HG; simpl.
  - intros [_ ->]%ret_done. by eapply evolves_refl.
  - intros H. run_inv H. destruct a.
    pose proof (Hbody _ _ _ Hrun) as Hev.
    destruct Hev as (G1 & G2 & H1 & H2 & Hrest).
    eapply evolves_trans; [exists G1, G2; eauto|]. by eapply IH.
Qed.

Lemma edge_ends u v :
  Nx.edge u v = (u, v) ∨ Nx.edge u v = (v, u).
Proof. unfold Nx.edge. destruct (u <=? v)%nat; auto. Qed.

Lemma edge_inj u v w : Nx.edge u v = Nx.edge u w → v = w.
Proof.
  unfold Nx.edge.
  destruct (u <=? v)%nat, (u <=? w)%nat; intros ?; by simplify_eq.
Qed.

(** Replacing one edge by one edge: the count stays or drops by one. *)
Lemma size_replace_edge (E : gset (nat * nat)) e e' :
  e ∈ E →
  (e' ∈ E ∖ {[e]} → size (E ∖ {[e]} ∪ {[e']}) + 1 = size E) ∧
  (e' ∉ E ∖ {[e]} → size (E ∖ {[e]} ∪ {[e']}) = size E).
Proof.
  intros He.
  assert (Hsz : size (E ∖ {[e]}) + 1 = size E).
  { rewrite size_difference by set_solver. rewrite size_singleton.
    assert (size E ≠ 0); [|lia].
    apply size_non_empty_iff. set_solver. }
  split; intros He'.
  - replace (E ∖ {[e]} ∪ {[e']}) with (E ∖ {[e]}) by set_solver. done.
  - rewrite size_union by set_solver. rewrite size_singleton. lia.
Qed.

Lemma graph_at_inj s g G G' : graph_at s g G → graph_at s g G' → G' = G.
Proof. unfold graph_at. congruence. Qed.

Lemma set_attr_evolves g n k v s s' :
  Nx.set_attr g n k v s = Done tt s' → evolves g s s'.
Proof.
  intros (G & l & d & HG & Hl & Hd & ->)%set_attr_done.
  assert (l ≠ g) by (unfold graph_at in HG; congruence).
  exists G, G. unfold graph_at, footprint in *. simpl.
  split; [done|]. split; [by rewrite lookup_insert_ne|].
  split; [done|]. split; [done|]. split; [done|].
  intros l' Hl'. rewrite lookup_insert_ne; [done|]. intros ->.
  apply Hl'. right. apply (list_elem_of_fmap_2 snd _ _ Hl).
Qed.

(** What lines 114-115 do to the graph object. *)
Lemma rewire_done g node neighbor w s s' G :
  Sim.rewire g node neighbor w s = Done tt s' →
  graph_at s g G →
  node ∈ map fst (g_node G) → w ∈ map fst (g_node G) →
  Nx.edge node neighbor ∈ g_adj G ∧
  s' = set_heap
    (<[g:=OGraph (GraphObj (g_node G)
         (g_adj G ∖ {[Nx.edge node neighbor]} ∪ {[Nx.edge node w]}))]>
       (heap s)) s.
Proof.
  unfold Sim.rewire. intros H HG Hnode Hw. run_inv H. destruct a.
  apply remove_edge_done in Hrun as (G0 & HG0 & He & ->).
  assert (G0 = G) as -> by eauto using graph_at_inj.
  split; [done|].
  erewrite add_edge_present in Hrun0;
    [| unfold graph_at; simpl; apply lookup_insert_eq | done..].
  injection Hrun0 as <-. unfold set_heap. simpl.
  by rewrite insert_insert_eq.
Qed.

Lemma rewire_evolves g node neighbor w s s' G :
  Sim.rewire g node neighbor w s = Done tt s' →
  graph_at s g G →
  node ∈ map fst (g_node G) → w ∈ map fst (g_node G) → w ≠ node →
  evolves g s s'.
Proof.
  intros H HG Hnode Hw Hne.
  destruct (rewire_done _ _ _ _ _ _ _ H HG Hnode Hw) as [He ->].
  eexists G, _. split; [done|].
  split; [unfold graph_at; simpl; apply lookup_insert_eq|]. simpl.
  split; [done|]. split; [|split].
  - destruct (size_replace_edge (g_adj G) _ (Nx.edge node w) He) as [H1 H2].
    destruct (decide (Nx.edge node w ∈ g_adj G ∖ {[Nx.edge node neighbor]}));
      [apply H1 in e | apply H2 in n]; lia.
  - intros Hs u v Huv. unfold simple in *. simpl in *.
    apply elem_of_union in Huv as [Huv|Huv].
    + apply Hs. set_solver.
    + apply elem_of_singleton in Huv.
      destruct (edge_ends node w) as [E|E]; rewrite E in Huv;
        by simplify_eq.
  - intros l Hl. rewrite lookup_insert_ne; [done|].
    intros <-. apply Hl. by left.
Qed.

(** One node of a sweep. *)
Lemma process_node_evolves g epsilon mu node s s' :
  Sim.process_node g epsilon mu node s = Done tt s' → evolves g s s'.
Proof.
  unfold Sim.process_node. intros H.
  run_step H as nbrs s1 H1.
  apply neighbors_done in H1 as (-> & G & HG & Hnode & _).
  destruct nbrs as [|? ?].
  { apply ret_done in H as [_ ->]. by eapply evolves_refl. }
  run_step H as nbrs' s2 H2. apply neighbors_done in H2 as (-> & _).
  run_step H as neighbor s3 H3.
  apply random_choice_done in H3 as (_ & Hh3 & _).
  run_step H as i s4 H4. apply get_attr_done in H4 as ->.
  run_step H as j s5 H5. apply get_attr_done in H5 as ->.
  run_step H as new s6 H6. apply lift_done in H6 as [_ ->].
  run_step H as u1 s7 H7. destruct u1. apply set_attr_evolves in H7.
  run_step H as u2 s8 H8. destruct u2. apply set_attr_evolves in H8.
  assert (Hev : evolves g s s8).
  { eapply evolves_trans; [by eapply evolves_same_heap|].
    by eapply evolves_trans. }
  destruct (Opinion.rewire_cond new.1 new.2 epsilon).
  2: { by apply ret_done in H as [_ ->]. }
  run_step H as ns s9 H9. apply nodes_done in H9 as (-> & G8 & HG8 & ->).
  run_step H as w0 s10 H10.
  apply random_choice_done in H10 as (Hw0 & Hh10 & _).
  run_step H as w s11 H11.
  apply redraw_done in H11 as (Hh11 & Hne & Hw).
  assert (HG11 : graph_at s11 g G8).
  { unfold graph_at in *. congruence. }
  assert (Hn8 : g_node G8 = g_node G).
  { destruct Hev as (Ga & Gb & Ha & Hb & Hn & _).
    by rewrite (graph_at_inj _ _ _ _ HG Ha), (graph_at_inj _ _ _ _ HG8 Hb) in Hn. }
  eapply evolves_trans; [exact Hev|].
  eapply evolves_trans; [eapply (evolves_same_heap g s8 s11); eauto; congruence|].
  eapply rewire_evolves; eauto.
  - by rewrite Hn8.
  - destruct Hw as [->|(G' & HG' & Hin)]; [done|].
    unfold graph_at in *. rewrite Hh10 in HG'.
    assert (G' = G8) as -> by congruence. done.
Qed.

Lemma shuffle_from_done i l s l' s' :
  shuffle_from i l s = Done l' s' → heap s' = heap s.
Proof.
  revert l s. induction i as [|i IH]; intros l s; simpl.
  - by intros [_ ->]%ret_done.
  - intros H. run_inv H. apply draw_int_done in Hrun as (Hh & _).
    apply IH in Hrun0. congruence.
Qed.

Lemma sweep_evolves g epsilon mu s s' :
  Sim.sweep g epsilon mu s = Done tt s' → evolves g s s'.
Proof.
  unfold Sim.sweep. intros H.
  run_step H as ns s1 H1. apply nodes_done in H1 as (-> & G & HG & ->).
  run_step H as order s2 H2. apply shuffle_from_done in H2.
  eapply evolves_trans; [by eapply (evolves_same_heap g s s2)|].
  eapply (for_each_evolves g _ order s2 s' G); [|unfold graph_at in *; congruence|done].
  intros x sa sb. apply process_node_evolves.
Qed.

Lemma time_loop_evolves g epsilon mu ts s s' G :
  graph_at s g G →
  Sim.time_loop g epsilon mu ts s = Done tt s' → evolves g s s'.
Proof.
  intros HG. apply (for_each_evolves g _ ts s s' G); [|done].
  intros x sa sb. apply sweep_evolves.
Qed.

(** ** Initialisation *)

Lemma dict_at_Some h l d :
  Sim.dict_at h l = Some d ↔ h !! l = Some (ODict d).
Proof.
  unfold Sim.dict_at. destruct (h !! l) as [[|]|]; naive_solver.
Qed.

Lemma dict_at_insert_graph h g G l :
  is_Some (Sim.dict_at h l) → is_Some (h !! g) →
  (∀ d, h !! g ≠ Some (ODict d)) →
  Sim.dict_at (<[g:=OGraph G]> h) l = Sim.dict_at h l.
Proof.
  intros [d Hd] _ Hg. apply dict_at_Some in Hd.
  unfold Sim.dict_at. rewrite lookup_insert_ne; [done|]. intros ->.
  by eapply Hg.
Qed.

Lemma add_node_inv g n s s' G :
  Nx.add_node g n s = Done tt s' →
  graph_at s g G → dicts_ok s G →
  ∃ G', graph_at s' g G' ∧ dicts_ok s' G' ∧ g_adj G' = g_adj G ∧
    map fst (g_node G') =
      (if decide (n ∈ map fst (g_node G)) then map fst (g_node G)
       else map fst (g_node G) ++ [n]) ∧
    (n ∈ map fst (g_node G) → G' = G).
Proof.
  intros H HG Hok. case_decide as Hn.
  - rewrite (add_node_present g n s G HG Hn) in H. injection H as <-.
    exists G. eauto.
  - rewrite (add_node_absent g n s G HG Hn) in H. injection H as <-.
    eexists. split; [unfold graph_at; simpl; apply lookup_insert_eq|].
    simpl. split; [|split; [done|split; [|done]]].
    + intros l Hl. unfold set_heap, Sim.dict_at. simpl.
      assert (Hg : fresh (dom (heap s)) ≠ g).
      { intros E. apply (is_fresh (dom (heap s))). rewrite E.
        apply elem_of_dom. unfold graph_at in HG. eauto. }
      cbn [g_node] in Hl.
      rewrite map_app in Hl. apply elem_of_app in Hl as [Hl|Hl].
      * destruct (Hok l Hl) as [d Hd]. apply dict_at_Some in Hd.
        assert (l ≠ g) by (unfold graph_at in HG; congruence).
        assert (l ≠ fresh (dom (heap s))).
        { intros E. apply (is_fresh (dom (heap s))). rewrite <- E.
          apply elem_of_dom. eauto. }
        rewrite !lookup_insert_ne by done. rewrite Hd. eauto.
      * apply list_elem_of_singleton in Hl. simpl in Hl. subst l.
        rewrite lookup_insert_ne by done. rewrite lookup_insert_eq. eauto.
    + by rewrite map_app.
Qed.

Lemma add_edge_inv g u v s s' G :
  Nx.add_edge g u v s = Done tt s' →
  graph_at s g G → dicts_ok s G →
  ∃ G', graph_at s' g G' ∧ dicts_ok s' G' ∧
    g_adj G' = g_adj G ∪ {[Nx.edge u v]} ∧
    (u ∈ map fst (g_node G) → v ∈ map fst (g_node G) →
     g_node G' = g_node G).
Proof.
  unfold Nx.add_edge. intros H HG Hok.
  run_step H as u1 s1 H1. destruct u1.
  destruct (add_node_inv _ _ _ _ _ H1 HG Hok) as (G1 & HG1 & Hok1 & Ha1 & _ & Hp1).
  run_step H as u2 s2 H2. destruct u2.
  destruct (add_node_inv _ _ _ _ _ H2 HG1 Hok1) as (G2 & HG2 & Hok2 & Ha2 & _ & Hp2).
  run_step H as G2' s3 H3. apply get_graph_done in H3 as [-> HG2'].
  assert (G2' = G2) as -> by eauto using graph_at_inj.
  unfold put_graph in H. injection H as <-.
  eexists. split; [unfold graph_at; simpl; apply lookup_insert_eq|].
  simpl. split; [|split].
  - intros l Hl. simpl in Hl. unfold set_heap. simpl.
    rewrite dict_at_insert_graph; [by apply Hok2|by apply Hok2| |].
    + unfold graph_at in HG2. rewrite HG2. eauto.
    + unfold graph_at in HG2. rewrite HG2. congruence.
  - congruence.
  - intros Hu Hv. rewrite (Hp1 Hu) in *. by rewrite (Hp2 Hv).
Qed.

Lemma add_nodes_done g k a s s' G :
  for_each (seq a k) (Nx.add_node g) s = Done tt s' →
  graph_at s g G → dicts_ok s G → map fst (g_node G) = seq 0 a →
  ∃ G', graph_at s' g G' ∧ dicts_ok s' G' ∧ g_adj G' = g_adj G ∧
    map fst (g_node G') = seq 0 (a + k).
Proof.
  revert a s G. induction k as [|k IH]; intros a s G; simpl.
  - intros [_ ->]%ret_done HG Hok Hk. exists G. by rewrite Nat.add_0_r.
  - intros H HG Hok Hk. run_step H as u s1 H1. destruct u.
    destruct (add_node_inv _ _ _ _ _ H1 HG Hok)
      as (G1 & HG1 & Hok1 & Ha1 & Hk1 & _).
    rewrite decide_False in Hk1.
    2: { rewrite Hk. intros Hin%elem_of_seq. lia. }
    destruct (IH (S a) s1 G1 H HG1 Hok1) as (G' & HG' & Hok' & Ha' & Hk').
    { rewrite Hk1, Hk. by rewrite seq_S. }
    exists G'. split; [done|]. split; [done|]. split; [congruence|].
    by rewrite Hk', Nat.add_succ_r.
Qed.

Lemma add_edges_done g es s s' G :
  for_each es (λ e, Nx.add_edge g e.1 e.2) s = Done tt s' →
  graph_at s g G → dicts_ok s G →
  ∃ G', graph_at s' g G' ∧ dicts_ok s' G' ∧
    ((∀ u v, (u, v) ∈ es →
        u ≠ v ∧ u ∈ map fst (g_node G) ∧ v ∈ map fst (g_node G)) →
     simple G → g_node G' = g_node G ∧ simple G').
Proof.
  revert s G. induction es as [|[u v] es IH]; intros s G; simpl.
  - intros [_ ->]%ret_done HG Hok. exists G. eauto.
  - intros H HG Hok. run_step H as u0 s1 H1. destruct u0.
    destruct (add_edge_inv _ _ _ _ _ _ H1 HG Hok) as (G1 & HG1 & Hok1 & Ha1 & Hn1).
    destruct (IH s1 G1 H HG1 Hok1) as (G' & HG' & Hok' & Hv').
    exists G'. split; [done|]. split; [done|]. intros Hes Hs.
    destruct (Hes u v) as (Huv & Hu & Hv); [left|].
    specialize (Hn1 Hu Hv).
    destruct Hv' as [Hn' Hs'].
    + intros u' v' Hin. rewrite Hn1. apply Hes. by right.
    + intros u' v' Hin. rewrite Ha1 in Hin. rewrite Hn1.
      apply elem_of_union in Hin as [Hin|Hin]; [by apply Hs|].
      apply elem_of_singleton in Hin.
      destruct (edge_ends u v) as [E|E]; rewrite E in Hin; by simplify_eq.
    + split; [congruence|done].
Qed.

Lemma alloc_done o s l s' :
  alloc o s = Done l s' →
  l = fresh (dom (heap s)) ∧ (l ∉ dom (heap s)) ∧
  s' = set_heap (<[l:=o]> (heap s)) s.
Proof.
  unfold alloc. intros [= <- <-].
  split; [done|]. split; [apply is_fresh|done].
Qed.

Lemma build_done n es s g s' :
  Nx.build n es s = Done g s' →
  (g ∉ dom (heap s)) ∧
  ∃ G, graph_at s' g G ∧ dicts_ok s' G ∧
    (valid_edges n es → map fst (g_node G) = seq 0 n ∧ simple G).
Proof.
  unfold Nx.build. intros H.
  run_step H as g0 s1 H1. apply alloc_done in H1 as (_ & Hfresh & ->).
  run_step H as u1 s2 H2. destruct u1.
  run_step H as u2 s3 H3. destruct u2.
  apply ret_done in H as [-> ->]. split; [done|].
  destruct (add_nodes_done g0 n 0 _ _ (GraphObj [] ∅) H2)
    as (G2 & HG2 & Hok2 & Ha2 & Hk2).
  { unfold graph_at. simpl. apply lookup_insert_eq. }
  { intros l Hl. simpl in Hl. by apply elem_of_nil in Hl. }
  { done. }
  destruct (add_edges_done g0 es _ _ G2 H3 HG2 Hok2) as (G3 & HG3 & Hok3 & Hv3).
  exists G3. split; [done|]. split; [done|]. intros Hes.
  simpl in Hk2, Ha2. destruct Hv3 as [Hn3 Hs3].
  - intros u v Hin. destruct (Hes u v Hin) as (? & ? & ?).
    rewrite Hk2. split; [done|]. split; apply elem_of_seq; lia.
  - intros u v Hin. rewrite Ha2 in Hin. set_solver.
  - by rewrite Hn3.
Qed.

Lemma set_node_attributes_done g values name s s' G :
  Nx.set_node_attributes g values name s = Done tt s' →
  graph_at s g G → dicts_ok s G →
  graph_at s' g G ∧ dicts_ok s' G.
Proof.
  unfold Nx.set_node_attributes.
  revert s. induction values as [|[n v] values IH]; intros s; simpl.
  - by intros [_ ->]%ret_done.
  - intros H HG Hok. run_step H as u s1 H1. destruct u.
    apply IH in H; [done|..].
    + run_step H1 as G0 s0 H0. apply get_graph_done in H0 as [-> HG0].
      assert (G0 = G) as -> by eauto using graph_at_inj.
      destruct (node_loc n (g_node G)) as [l|].
      2: { by apply ret_done in H1 as [_ ->]. }
      run_step H1 as d s2 H2. apply get_dict_done in H2 as [-> Hd].
      unfold put_dict in H1. injection H1 as <-.
      unfold graph_at in *. simpl. rewrite lookup_insert_ne; [done|].
      congruence.
    + run_step H1 as G0 s0 H0. apply get_graph_done in H0 as [-> HG0].
      assert (G0 = G) as -> by eauto using graph_at_inj.
      destruct (node_loc n (g_node G)) as [l|].
      2: { by apply ret_done in H1 as [_ ->]. }
      run_step H1 as d s2 H2. apply get_dict_done in H2 as [-> Hd].
      unfold put_dict in H1. injection H1 as <-.
      intros l' Hl'. unfold Sim.dict_at. simpl.
      destruct (decide (l = l')) as [->|Hne].
      * rewrite lookup_insert_eq. eauto.
      * rewrite lookup_insert_ne by done. by apply Hok.
Qed.

Lemma map_m_same_heap {A B} (f : A → M B) l s l' s' :
  (∀ x s y s', f x s = Done y s' → heap s' = heap s) →
  map_m f l s = Done l' s' → heap s' = heap s.
Proof.
  intros Hf. revert s l'. induction l as [|x l IH]; intros s l'; simpl.
  - by intros [_ ->]%ret_done.
  - intros H. run_step H as y s1 H1. run_step H as ys s2 H2.
    apply ret_done in H as [_ ->].
    apply Hf in H1. apply IH in H2. congruence.
Qed.

Lemma random_uniform_done a b s r s' :
  random_uniform a b s = Done r s' → heap s' = heap s.
Proof.
  unfold random_uniform. intros H. run_step H as x s1 H1.
  apply ret_done in H as [_ ->]. unfold draw_real in H1.
  destruct (reals s); [done|]. by injection H1 as _ <-.
Qed.

Lemma initialize_graph_done gen N m_ba s g s' :
  Sim.initialize_graph gen N m_ba s = Done g s' →
  ∃ n es G, gen N m_ba = Ret (n, es) ∧
    graph_at s' g G ∧ dicts_ok s' G ∧
    (valid_edges n es → map fst (g_node G) = seq 0 n ∧ simple G).
Proof.
  unfold Sim.initialize_graph. intros H.
  run_step H as t s1 H1. apply lift_done in H1 as [Hgen ->].
  destruct t as [n es]. simpl in H.
  run_step H as g0 s2 H2.
  apply build_done in H2 as (_ & G & HG & Hok & Hv).
  run_step H as ns s3 H3. apply nodes_done in H3 as (-> & _).
  run_step H as ops s4 H4.
  apply map_m_same_heap in H4.
  2: { intros x sa y sb Hx. run_step Hx as r sc Hr.
       apply ret_done in Hx as [_ ->]. by eapply random_uniform_done. }
  run_step H as u s5 H5. destruct u. apply ret_done in H as [-> ->].
  assert (HG4 : graph_at s4 g0 G) by (unfold graph_at in *; congruence).
  assert (Hok4 : dicts_ok s4 G) by (unfold dicts_ok in *; by rewrite H4).
  destruct (set_node_attributes_done _ _ _ _ _ _ H5 HG4 Hok4) as [HG5 Hok5].
  exists n, es, G. eauto.
Qed.

(** ** [copy] *)

Lemma dict_at_ext h h' l : h' !! l = h !! l → Sim.dict_at h' l = Sim.dict_at h l.
Proof. unfold Sim.dict_at. by intros ->. Qed.

Lemma copy_nodes_done ns s ns' s' :
  map_m Nx.copy_node ns s = Done ns' s' →
  (∀ l, l ∈ map snd ns → l ∈ dom (heap s)) →
  (∀ l, l ∈ dom (heap s) → heap s' !! l = heap s !! l) ∧
  (∀ l, l ∈ map snd ns' → (l ∉ dom (heap s)) ∧ l ∈ dom (heap s')) ∧
  map (λ p, (p.1, Sim.dict_at (heap s') p.2)) ns' =
    map (λ p, (p.1, Sim.dict_at (heap s) p.2)) ns.
Proof.
  revert s ns'. induction ns as [|p ns IH]; intros s ns'; simpl.
  - intros [-> ->]%ret_done _. split; [done|]. split; [|done].
    intros l Hl. by apply elem_of_nil in Hl.
  - intros H Hdom. run_step H as p' sa Hp. run_step H as ns'' sb Hns.
    apply ret_done in H as [-> ->].
    unfold Nx.copy_node in Hp.
    run_step Hp as d s0 Hd. apply get_dict_done in Hd as [-> Hd].
    run_step Hp as l' s1 Hl'. apply alloc_done in Hl' as (_ & Hfresh & ->).
    apply ret_done in Hp as [-> ->].
    destruct (IH _ _ Hns) as (Ha & Hb & Hc).
    { intros l Hl. simpl. rewrite dom_insert. apply elem_of_union. right.
      apply Hdom. by right. }
    simpl in Ha, Hb, Hc.
    assert (Hold : ∀ l, l ∈ dom (heap s) → heap sb !! l = heap s !! l).
    { intros l Hl. rewrite Ha.
      - apply lookup_insert_ne. intros ->. done.
      - rewrite dom_insert. set_solver. }
    split; [done|]. split.
    + intros l [->|Hl]%elem_of_cons.
      * simpl. split; [done|]. apply elem_of_dom. rewrite Ha.
        -- rewrite lookup_insert_eq. eauto.
        -- rewrite dom_insert. set_solver.
      * destruct (Hb l Hl) as [Hn Hin]. split; [|done].
        rewrite dom_insert in Hn. set_solver.
    + simpl. f_equal.
      * f_equal. unfold Sim.dict_at at 1. rewrite Ha.
        -- rewrite lookup_insert_eq. unfold Sim.dict_at. by rewrite Hd.
        -- rewrite dom_insert. set_solver.
      * rewrite Hc. apply map_ext_in. intros q Hq. f_equal.
        apply dict_at_ext. apply lookup_insert_ne. intros ->.
        apply Hfresh, Hdom. right.
        apply list_elem_of_In in Hq. by apply (list_elem_of_fmap_2 snd).
Qed.

Lemma footprint_in_dom s g G l :
  graph_at s g G → dicts_ok s G → footprint g G l → l ∈ dom (heap s).
Proof.
  intros HG Hok [->|Hl]; apply elem_of_dom.
  - unfold graph_at in HG. eauto.
  - destruct (Hok l Hl) as [d Hd]. apply dict_at_Some in Hd. eauto.
Qed.

(** [g.copy()] returns a graph of new objects that holds what [g] holds. *)
Lemma copy_done g s gi s' G :
  Nx.copy g s = Done gi s' →
  graph_at s g G → dicts_ok s G →
  ∃ Gi, graph_at s' gi Gi ∧ graph_at s' g G ∧ g_adj Gi = g_adj G ∧
    Sim.graph_view (heap s') gi = Sim.graph_view (heap s) g ∧
    (∀ l, footprint gi Gi l → ¬ footprint g G l) ∧
    (∀ l, l ∈ dom (heap s) → heap s' !! l = heap s !! l).
Proof.
  unfold Nx.copy. intros H HG Hok.
  run_step H as G0 s0 H0. apply get_graph_done in H0 as [-> HG0].
  assert (G0 = G) as -> by eauto using graph_at_inj.
  run_step H as ns s1 H1.
  apply copy_nodes_done in H1 as (Ha & Hb & Hc).
  2: { intros l Hl. eapply footprint_in_dom; eauto. by right. }
  apply alloc_done in H as (_ & Hfresh & ->).
  assert (Hsub : ∀ l, l ∈ dom (heap s) → l ∈ dom (heap s1)).
  { intros l Hl. apply elem_of_dom. rewrite Ha by done. by apply elem_of_dom. }
  assert (Hold : ∀ l, l ∈ dom (heap s) →
            <[gi:=OGraph (GraphObj ns (g_adj G))]> (heap s1) !! l = heap s !! l).
  { intros l Hl. rewrite lookup_insert_ne; [by apply Ha|].
    intros <-. by apply Hfresh, Hsub. }
  assert (Hg : g ∈ dom (heap s)).
  { eapply footprint_in_dom; eauto. by left. }
  eexists. split; [unfold graph_at; simpl; apply lookup_insert_eq|].
  split; [unfold graph_at in *; simpl; by rewrite Hold|].
  split; [done|]. simpl. split; [|split; [|done]].
  - unfold Sim.graph_view. rewrite lookup_insert_eq.
    unfold graph_at in HG. rewrite HG. simpl. f_equal. f_equal.
    rewrite <- Hc. apply map_ext_in. intros q Hq. f_equal.
    apply dict_at_ext. apply lookup_insert_ne. intros E.
    apply list_elem_of_In in Hq.
    apply (list_elem_of_fmap_2 snd) in Hq. apply Hb in Hq as [_ Hq].
    rewrite <- E in Hq. done.
  - intros l Hgi Hgl.
    pose proof (footprint_in_dom _ _ _ _ HG Hok Hgl) as Hin.
    destruct Hgi as [->|Hl]; simpl in *.
    + by apply Hfresh, Hsub.
    + apply Hb in Hl as [Hl _]. done.
Qed.

(** A graph whose objects are left alone holds what it held. *)
Lemma graph_view_frame h h' g G :
  h !! g = Some (OGraph G) →
  (∀ l, footprint g G l → h' !! l = h !! l) →
  Sim.graph_view h' g = Sim.graph_view h g.
Proof.
  intros HG Hf. unfold Sim.graph_view.
  rewrite (Hf g) by by left. rewrite HG. f_equal. f_equal.
  apply map_ext_in. intros q Hq. f_equal. apply dict_at_ext, Hf. right.
  apply list_elem_of_In in Hq. by apply (list_elem_of_fmap_2 snd).
Qed.

(** ** A run of [run_sim] *)

(** A returned run passed the checks, initialised [g], copied it into
    [g_init] and ran the time steps of [range(T)] on [g]. *)
Lemma run_sim_done gen N T epsilon mu m_ba s g gi s' :
  Sim.run_sim gen N T epsilon mu m_ba s = Done (g, gi) s' →
  Sim.run_sim_checks N T epsilon mu = Ret tt ∧
  ∃ s1 s2 ts,
    Sim.initialize_graph gen N m_ba s = Done g s1 ∧
    Nx.copy g s1 = Done gi s2 ∧
    Sim.py_range T s2 = Done ts s2 ∧
    Sim.time_loop g epsilon mu ts s2 = Done tt s'.
Proof.
  unfold Sim.run_sim. intros H.
  run_step H as u s0 H0. destruct u. apply lift_done in H0 as [Hc ->].
  run_step H as g0 s1 H1. run_step H as gi0 s2 H2.
  run_step H as ts s3 H3. run_step H as u s4 H4. destruct u.
  apply ret_done in H as [[= -> ->] ->].
  split; [done|]. exists s1, s2, ts.
  assert (s3 = s2) as ->.
  { destruct T; simpl in H3; [by apply ret_done in H3 as [_ ->]|done]. }
  done.
Qed.

(** While [g] evolves, a graph whose objects are apart from those of [g]
    is left as it was. *)
Lemma evolves_frame g gi s s' G Gi :
  evolves g s s' → graph_at s g G → graph_at s gi Gi →
  (∀ l, footprint gi Gi l → ¬ footprint g G l) →
  graph_at s' gi Gi ∧
  Sim.graph_view (heap s') gi = Sim.graph_view (heap s) gi.
Proof.
  intros (Ga & Gb & Ha & Hb & _ & _ & _ & Hf) HG HGi Hdisj.
  assert (Ga = G) as -> by eauto using graph_at_inj.
  assert (Hsame : ∀ l, footprint gi Gi l → heap s' !! l = heap s !! l).
  { intros l Hl. apply Hf. by apply Hdisj. }
  split.
  - unfold graph_at in *. rewrite Hsame; [done|by left].
  - by eapply graph_view_frame.
Qed.

Section RunFacts.
Import Sim.

(** C8: the graph returned second holds what the graph held right after
    [initialize_graph] (same nodes in the same order, every node's
    attribute dictionary, same edges), after the copy, after any number of
    time steps on [g], and when [run_sim] returns. *)
Theorem run_sim_initial_snapshot gen N T epsilon mu m_ba s g gi s' :
  run_sim gen N T epsilon mu m_ba s = Done (g, gi) s' →
  ∃ s1 s2 V,
    initialize_graph gen N m_ba s = Done g s1 ∧
    Nx.copy g s1 = Done gi s2 ∧
    graph_view (heap s1) g = Some V ∧
    (∀ p, p ∈ V.1 → is_Some p.2) ∧
    graph_view (heap s2) gi = Some V ∧
    (∀ ts s'', time_loop g epsilon mu ts s2 = Done tt s'' →
       graph_view (heap s'') gi = Some V) ∧
    graph_view (heap s') gi = Some V.
Proof.
  intros (_ & s1 & s2 & ts & Hinit & Hcopy & _ & Hloop)%run_sim_done.
  destruct (initialize_graph_done _ _ _ _ _ _ Hinit)
    as (n & es & G1 & _ & HG1 & Hok1 & _).
  destruct (copy_done _ _ _ _ _ Hcopy HG1 Hok1)
    as (Gi & HGi & HG2 & _ & Hview & Hdisj & _).
  exists s1, s2, (map (λ p, (p.1, dict_at (heap s1) p.2)) (g_node G1), g_adj G1).
  assert (Hv1 : graph_view (heap s1) g =
            Some (map (λ p, (p.1, dict_at (heap s1) p.2)) (g_node G1), g_adj G1)).
  { unfold graph_view. unfold graph_at in HG1. by rewrite HG1. }
  assert (Hany : ∀ ts s'', time_loop g epsilon mu ts s2 = Done tt s'' →
            graph_view (heap s'') gi = graph_view (heap s1) g).
  { intros ts' s'' Hl. rewrite <- Hview.
    eapply evolves_frame; eauto using time_loop_evolves. }
  split; [done|]. split; [done|]. split; [done|]. split.
  { intros p Hp. simpl in Hp. apply list_elem_of_fmap in Hp as (q & -> & Hq).
    simpl. apply Hok1. by apply (list_elem_of_fmap_2 snd). }
  split; [congruence|]. split.
  - intros ts' s'' Hl. rewrite <- Hv1. eauto.
  - rewrite <- Hv1. eauto.
Qed.

(** The scenario run returns. *)
Example scenario_run_eq :
  run_sim path_generator (PyInt 4) (PyInt 2) (1#10) (1#2) 2
    (scenario_state scenario_draws) = Done (0, 9) scenario_final.
Proof. vm_compute. reflexivity. Qed.

Lemma run_sim_initial_snapshot_witness :
  ∃ s1 s2 V,
    initialize_graph path_generator (PyInt 4) 2
      (scenario_state scenario_draws) = Done 0 s1 ∧
    Nx.copy 0 s1 = Done 9 s2 ∧
    graph_view (heap s1) 0 = Some V ∧
    (∀ p, p ∈ V.1 → is_Some p.2) ∧
    graph_view (heap s2) 9 = Some V ∧
    (∀ ts s'', time_loop 0 (1#10) (1#2) ts s2 = Done tt s'' →
       graph_view (heap s'') 9 = Some V) ∧
    graph_view (heap scenario_final) 9 = Some V.
Proof.
  apply (run_sim_initial_snapshot path_generator (PyInt 4) (PyInt 2)
           (1#10) (1#2) 2 (scenario_state scenario_draws) 0 9 scenario_final).
  vm_compute. reflexivity.
Defined.

Lemma graph_ok_simple n G : graph_ok n G ↔ map fst (g_node G) = seq 0 n ∧ simple G.
Proof.
  unfold graph_ok, simple. split; intros [Hn He]; (split; [done|]);
    intros u v Huv; destruct (He u v Huv) as (? & Hu & Hv);
    (split; [done|]); rewrite ?Hn in *.
  - split; apply elem_of_seq; lia.
  - apply elem_of_seq in Hu, Hv. lia.
Qed.

Lemma evolves_graph_ok g s s' n G :
  evolves g s s' → graph_at s g G → graph_ok n G →
  ∃ G', graph_at s' g G' ∧ g_node G' = g_node G ∧ graph_ok n G'.
Proof.
  intros (Ga & Gb & Ha & Hb & Hn & _ & Hs & _) HG Hok.
  assert (Ga = G) as -> by eauto using graph_at_inj.
  apply graph_ok_simple in Hok as [Hk Hsim].
  exists Gb. split; [done|]. split; [done|].
  apply graph_ok_simple. rewrite Hn. auto.
Qed.

(** C9: when the generator returns N nodes and edges between distinct
    nodes below N, the graph has exactly the nodes 0 .. N-1 and only
    edges between distinct nodes below N right after initialisation,
    after every node that a sweep processes (a rewire included), after any
    number of time steps, and when [run_sim] returns; the redrawn new
    neighbor is never the node itself. *)
Theorem run_sim_nodes_and_edges gen z T epsilon mu m_ba es s g gi s' :
  gen (PyInt z) m_ba = Ret (Z.to_nat z, es) →
  valid_edges (Z.to_nat z) es →
  run_sim gen (PyInt z) T epsilon mu m_ba s = Done (g, gi) s' →
  ∃ s1 s2 G1,
    initialize_graph gen (PyInt z) m_ba s = Done g s1 ∧
    Nx.copy g s1 = Done gi s2 ∧
    graph_at s1 g G1 ∧ graph_ok (Z.to_nat z) G1 ∧
    (∀ node sa sb Ga,
       graph_at sa g Ga → graph_ok (Z.to_nat z) Ga →
       process_node g epsilon mu node sa = Done tt sb →
       ∃ Gb, graph_at sb g Gb ∧ g_node Gb = g_node Ga ∧
         graph_ok (Z.to_nat z) Gb) ∧
    (∀ node w0 sa w sb, redraw g node w0 sa = Done w sb → w ≠ node) ∧
    (∀ ts s'', time_loop g epsilon mu ts s2 = Done tt s'' →
       ∃ G, graph_at s'' g G ∧ g_node G = g_node G1 ∧
         graph_ok (Z.to_nat z) G) ∧
    ∃ G, graph_at s' g G ∧ g_node G = g_node G1 ∧ graph_ok (Z.to_nat z) G.
Proof.
  intros Hgen Hvalid (_ & s1 & s2 & ts & Hinit & Hcopy & _ & Hloop)%run_sim_done.
  destruct (initialize_graph_done _ _ _ _ _ _ Hinit)
    as (n & es' & G1 & Hgen' & HG1 & Hok1 & Hv).
  rewrite Hgen in Hgen'. injection Hgen' as <- <-.
  specialize (Hv Hvalid).
  destruct (copy_done _ _ _ _ _ Hcopy HG1 Hok1) as (Gi & _ & HG2 & _).
  assert (Hg1 : graph_ok (Z.to_nat z) G1) by by apply graph_ok_simple.
  exists s1, s2, G1. split; [done|]. split; [done|]. split; [done|].
  split; [done|]. split; [|split; [|split]].
  - intros node sa sb Ga HGa Hoka Hstep.
    eapply evolves_graph_ok; eauto using process_node_evolves.
  - intros node w0 sa w sb Hrd. by apply redraw_done in Hrd as (_ & Hne & _).
  - intros ts' s'' Hl.
    eapply evolves_graph_ok; eauto using time_loop_evolves.
  - eapply evolves_graph_ok; eauto using time_loop_evolves.
Qed.

Lemma path_generator_valid z :
  valid_edges (Z.to_nat z) (map (λ k, (k, S k)) (seq 0 (Z.to_nat z - 1))).
Proof.
  intros u v (k & [= -> ->] & Hk%elem_of_seq)%list_elem_of_fmap. lia.
Qed.

Lemma run_sim_nodes_and_edges_witness :
  ∃ s1 s2 G1,
    initialize_graph path_generator (PyInt 4) 2
      (scenario_state scenario_draws) = Done 0 s1 ∧
    Nx.copy 0 s1 = Done 9 s2 ∧
    graph_at s1 0 G1 ∧ graph_ok (Z.to_nat 4) G1 ∧
    (∀ node sa sb Ga,
       graph_at sa 0 Ga → graph_ok (Z.to_nat 4) Ga →
       process_node 0 (1#10) (1#2) node sa = Done tt sb →
       ∃ Gb, graph_at sb 0 Gb ∧ g_node Gb = g_node Ga ∧
         graph_ok (Z.to_nat 4) Gb) ∧
    (∀ node w0 sa w sb, redraw 0 node w0 sa = Done w sb → w ≠ node) ∧
    (∀ ts s'', time_loop 0 (1#10) (1#2) ts s2 = Done tt s'' →
       ∃ G, graph_at s'' 0 G ∧ g_node G = g_node G1 ∧
         graph_ok (Z.to_nat 4) G) ∧
    ∃ G, graph_at scenario_final 0 G ∧ g_node G = g_node G1 ∧
      graph_ok (Z.to_nat 4) G.
Proof.
  apply (run_sim_nodes_and_edges path_generator 4 (PyInt 2) (1#10) (1#2) 2
           (map (λ k, (k, S k)) (seq 0 (Z.to_nat 4 - 1)))
           (scenario_state scenario_draws) 0 9 scenario_final).
  - reflexivity.
  - apply path_generator_valid.
  - vm_compute. reflexivity.
Defined.

Lemma edge_count_graph_at s g G :
  graph_at s g G → edge_count s g = Some (size (g_adj G)).
Proof. unfold graph_at, edge_count. by intros ->. Qed.

(** C10 as stated fails when w is the removed neighbor: in the graph
    0 - 1, node 0 rewires from its neighbor 1 to w = 1; w was adjacent to
    the node, and the graph still has its one edge. *)
Lemma rewire_to_removed_neighbor_keeps_count :
  ∃ s' G,
    rewire 0 0 1 1 pair_state = Done tt s' ∧
    graph_at pair_state 0 G ∧
    Nx.edge 0 1 ∈ g_adj G ∧
    edge_count pair_state 0 = Some 1 ∧
    edge_count s' 0 = Some 1 ∧
    edge_count s' 0 ≠ Some (1 - 1).
Proof.
  eexists _, _. split; [vm_compute; reflexivity|].
  split; [vm_compute; reflexivity|].
  split; [by vm_compute|].
  split; [vm_compute; reflexivity|].
  split; [vm_compute; reflexivity|].
  vm_compute. congruence.
Qed.

(** C10, amended: a rewire removes the edge (node, neighbor) and adds the
    edge (node, w); the number of edges stays the same when (node, w) was
    not an edge or w is the removed neighbor, and drops by exactly one
    when (node, w) was an edge and w is not the removed neighbor.  No node
    of a sweep and no number of time steps raises the number of edges, and
    the graph that [run_sim] returns first has at most as many edges as
    the one it returns second. *)
Theorem run_sim_edge_count gen N T epsilon mu m_ba s g gi s' :
  run_sim gen N T epsilon mu m_ba s = Done (g, gi) s' →
  (∀ node neighbor w sa sb G,
     graph_at sa g G →
     node ∈ map fst (g_node G) → w ∈ map fst (g_node G) →
     rewire g node neighbor w sa = Done tt sb →
     Nx.edge node neighbor ∈ g_adj G ∧
     ∃ G', graph_at sb g G' ∧
       g_adj G' = g_adj G ∖ {[Nx.edge node neighbor]} ∪ {[Nx.edge node w]} ∧
       (Nx.edge node w ∉ g_adj G ∨ w = neighbor →
          size (g_adj G') = size (g_adj G)) ∧
       (Nx.edge node w ∈ g_adj G → w ≠ neighbor →
          size (g_adj G') + 1 = size (g_adj G))) ∧
  (∀ node sa sb G,
     graph_at sa g G →
     process_node g epsilon mu node sa = Done tt sb →
     ∃ G', graph_at sb g G' ∧ size (g_adj G') ≤ size (g_adj G)) ∧
  ∃ s1 s2 n0,
    initialize_graph gen N m_ba s = Done g s1 ∧
    Nx.copy g s1 = Done gi s2 ∧
    edge_count s1 g = Some n0 ∧
    edge_count s' gi = Some n0 ∧
    (∀ ts s'', time_loop g epsilon mu ts s2 = Done tt s'' →
       ∃ k, edge_count s'' g = Some k ∧ k ≤ n0) ∧
    ∃ k, edge_count s' g = Some k ∧ k ≤ n0.
Proof.
  intros (_ & s1 & s2 & ts & Hinit & Hcopy & _ & Hloop)%run_sim_done.
  split; [|split].
  - intros node neighbor w sa sb G HG Hnode Hw Hrw.
    destruct (rewire_done _ _ _ _ _ _ _ Hrw HG Hnode Hw) as [He ->].
    split; [done|]. eexists.
    split; [unfold graph_at; simpl; apply lookup_insert_eq|]. simpl.
    split; [done|].
    destruct (size_replace_edge (g_adj G) _ (Nx.edge node w) He) as [H1 H2].
    split.
    + intros Hcase. apply H2. intros [Hin Hne]%elem_of_difference.
      destruct Hcase as [Hnot| ->]; [done|]. apply Hne. by apply elem_of_singleton.
    + intros Hin Hne. apply H1. apply elem_of_difference. split; [done|].
      intros Heq%elem_of_singleton. by apply edge_inj in Heq.
  - intros node sa sb G HG Hstep.
    apply process_node_evolves in Hstep as (Ga & Gb & Ha & Hb & _ & Hsz & _).
    assert (Ga = G) as -> by eauto using graph_at_inj. eauto.
  - destruct (initialize_graph_done _ _ _ _ _ _ Hinit)
      as (n & es & G1 & _ & HG1 & Hok1 & _).
    destruct (copy_done _ _ _ _ _ Hcopy HG1 Hok1)
      as (Gi & HGi & HG2 & Hadj & _ & Hdisj & _).
    assert (Hany : ∀ ts s'', time_loop g epsilon mu ts s2 = Done tt s'' →
              graph_at s'' gi Gi ∧
              ∃ k, edge_count s'' g = Some k ∧ k ≤ size (g_adj G1)).
    { intros ts' s'' Hl.
      pose proof (time_loop_evolves _ _ _ _ _ _ _ HG2 Hl) as Hev.
      split; [by eapply evolves_frame|].
      destruct Hev as (Ga & Gb & Ha & Hb & _ & Hsz & _).
      assert (Ga = G1) as -> by eauto using graph_at_inj.
      exists (size (g_adj Gb)). split; [by apply edge_count_graph_at|done]. }
    exists s1, s2, (size (g_adj G1)).
    split; [done|]. split; [done|].
    split; [by apply edge_count_graph_at|]. split; [|split].
    + destruct (Hany _ _ Hloop) as [HGi' _].
      rewrite (edge_count_graph_at _ _ _ HGi'). by rewrite Hadj.
    + intros ts' s'' Hl. by apply Hany in Hl as [_ ?].
    + by apply Hany in Hloop as [_ ?].
Qed.

Lemma run_sim_edge_count_witness :
  (∀ node neighbor w sa sb G,
     graph_at sa 0 G →
     node ∈ map fst (g_node G) → w ∈ map fst (g_node G) →
     rewire 0 node neighbor w sa = Done tt sb →
     Nx.edge node neighbor ∈ g_adj G ∧
     ∃ G', graph_at sb 0 G' ∧
       g_adj G' = g_adj G ∖ {[Nx.edge node neighbor]} ∪ {[Nx.edge node w]} ∧
       (Nx.edge node w ∉ g_adj G ∨ w = neighbor →
          size (g_adj G') = size (g_adj G)) ∧
       (Nx.edge node w ∈ g_adj G → w ≠ neighbor →
          size (g_adj G') + 1 = size (g_adj G))) ∧
  (∀ node sa sb G,
     graph_at sa 0 G →
     process_node 0 (1#10) (1#2) node sa = Done tt sb →
     ∃ G', graph_at sb 0 G' ∧ size (g_adj G') ≤ size (g_adj G)) ∧
  ∃ s1 s2 n0,
    initialize_graph path_generator (PyInt 4) 2
      (scenario_state scenario_draws) = Done 0 s1 ∧
    Nx.copy 0 s1 = Done 9 s2 ∧
    edge_count s1 0 = Some n0 ∧
    edge_count scenario_final 9 = Some n0 ∧
    (∀ ts s'', time_loop 0 (1#10) (1#2) ts s2 = Done tt s'' →
       ∃ k, edge_count s'' 0 = Some k ∧ k ≤ n0) ∧
    ∃ k, edge_count scenario_final 0 = Some k ∧ k ≤ n0.
Proof.
  apply (run_sim_edge_count path_generator (PyInt 4) (PyInt 2) (1#10) (1#2) 2
           (scenario_state scenario_draws) 0 9 scenario_final).
  vm_compute. reflexivity.
Defined.

(** In the scenario the run does lose an edge: three edges at the start,
    two at the end. *)
Example scenario_edge_counts :
  edge_count scenario_final 9 = Some 3 ∧ edge_count scenario_final 0 = Some 2.
Proof. split; vm_compute; reflexivity. Qed.

(** With epsilon = 0.3 the first node of the scenario, node 0, meets its
    neighbor 1: both opinions become 0.5 and no edge changes. *)
Example scenario_first_step :
  ∃ s' V V',
    process_node 0 (3#10) (1#2) 0 scenario_start = Done tt s' ∧
    graph_view (heap scenario_start) 0 = Some V ∧
    graph_view (heap s') 0 = Some V' ∧
    V.2 = V'.2 ∧
    (∀ d, V'.1 !! 0 = Some (0, Some d) → ∃ o, d !! "opinion" = Some o ∧ (o == 1#2)%Q) ∧
    (∀ d, V'.1 !! 1 = Some (1, Some d) → ∃ o, d !! "opinion" = Some o ∧ (o == 1#2)%Q) ∧
    is_Some (V'.1 !! 0) ∧ is_Some (V'.1 !! 1).
Proof.
  eexists _, _, _.
  split; [vm_compute; reflexivity|].
  split; [vm_compute; reflexivity|].
  split; [vm_compute; reflexivity|].
  split; [vm_compute; reflexivity|].
  split; [|split; [|split]].
  - intros d [= <-]. eexists. split; [vm_compute; reflexivity|]. reflexivity.
  - intros d [= <-]. eexists. split; [vm_compute; reflexivity|]. reflexivity.
  - vm_compute. eauto.
  - vm_compute. eauto.
Qed.

End RunFacts.

(** ** The parameter sweep *)

Section SweepFacts.
Import Sweep.

Lemma starmap_all_ret {A B} (f : A → res B) (g : A → B) args :
  (∀ a, a ∈ args → f a = Ret (g a)) →
  starmap f args = Ret (map g args).
Proof.
  induction args as [|a args IH]; intros Hf; simpl; [done|].
  rewrite (Hf a) by left. simpl. rewrite IH; [done|].
  intros a' Ha'. apply Hf. by right.
Qed.

Lemma starmap_raise {A B} (f : A → res B) args a e :
  a ∈ args → f a = Raise e →
  ∃ a' e', a' ∈ args ∧ f a' = Raise e' ∧ starmap f args = Raise e'.
Proof.
  induction args as [|b args IH]; intros Ha Hfa; [by apply elem_of_nil in Ha|].
  simpl. destruct (f b) as [y|e'] eqn:Eb.
  - apply elem_of_cons in Ha as [->|Ha]; [congruence|].
    destruct (IH Ha Hfa) as (a' & e' & Hin & Hfa' & Hs).
    exists a', e'. split; [by right|]. split; [done|]. simpl. by rewrite Hs.
  - exists b, e'. split; [left|]. done.
Qed.

Lemma NoDup_list_prod {A B} (l : list A) (k : list B) :
  NoDup l → NoDup k → NoDup (list_prod l k).
Proof.
  intros Hl Hk. induction Hl as [|x l Hx Hl IH]; simpl; [constructor|].
  apply NoDup_app. split; [|split; [|done]].
  - by apply (NoDup_fmap_2 (pair x)).
  - intros [a b] Hin Hin'. apply list_elem_of_fmap in Hin as (b' & [= -> ->] & _).
    apply list_elem_of_In, in_prod_iff in Hin' as [Hin' _].
    by apply list_elem_of_In in Hin'.
Qed.

Lemma record_key_worker (d : gmap string Q) (epsilon mu : Q) :
  record_key (<["mu":=mu]> (<["epsilon":=epsilon]> d)) = (Some epsilon, Some mu).
Proof.
  unfold record_key. rewrite lookup_insert_ne by done.
  by rewrite !lookup_insert_eq.
Qed.

(** C7: for non-empty lists of epsilon and mu values, at least one
    processor and an analysis that returns at every point of the grid,
    [multiprocess_all] returns one record per pair of the cross product, in
    its order: as many records as the product of the two lengths, the
    record of a pair carrying that pair under the keys epsilon and mu; no
    pair is duplicated when no value is; for the values [0, 0.5] and
    [0, 0.5] with one run the four keys are (0,0), (0,0.5), (0.5,0),
    (0.5,0.5). *)
Theorem multiprocess_all_grid combined_analysis cpu_count
    (epsilon_values mu_values : list Q) n_runs n_nodes time_steps m_ba :
  1 ≤ cpu_count → epsilon_values ≠ [] → mu_values ≠ [] →
  (∀ epsilon mu, epsilon ∈ epsilon_values → mu ∈ mu_values →
     ∃ d, combined_analysis n_runs n_nodes time_steps epsilon mu m_ba = Ret d) →
  ∃ records,
    multiprocess_all combined_analysis cpu_count epsilon_values mu_values
      n_runs n_nodes time_steps m_ba = Ret records ∧
    length records = length epsilon_values * length mu_values ∧
    map record_key records =
      map (λ p, (Some p.1, Some p.2)) (list_prod epsilon_values mu_values) ∧
    (NoDup epsilon_values → NoDup mu_values → NoDup (map record_key records)) ∧
    (epsilon_values = [0; 1#2]%Q → mu_values = [0; 1#2]%Q → n_runs = 1 →
     map record_key records =
       [(Some 0, Some 0); (Some 0, Some (1#2));
        (Some (1#2), Some 0); (Some (1#2), Some (1#2))]%Q).
Proof.
  intros Hcpu He Hm Hok.
  set (grid := list_prod epsilon_values mu_values).
  set (g := λ p : Q * Q,
         match combined_analysis n_runs n_nodes time_steps p.1 p.2 m_ba with
         | Ret d => <["mu":=p.2]> (<["epsilon":=p.1]> d)
         | Raise _ => ∅
         end).
  assert (Hkeys : map record_key (map g grid) =
            map (λ p, (Some p.1, Some p.2)) grid).
  { rewrite map_map. apply map_ext_in. intros [e m] Hin.
    apply in_prod_iff in Hin as [He' Hm'].
    apply list_elem_of_In in He', Hm'.
    destruct (Hok e m He' Hm') as [d Hd]. unfold g. simpl. rewrite Hd.
    apply record_key_worker. }
  exists (map g grid). split; [|split; [|split; [done|split]]].
  - unfold multiprocess_all. fold grid.
    assert (Hlen : length grid ≠ 0).
    { unfold grid. rewrite length_prod.
      destruct epsilon_values, mu_values; simpl; try done. }
    destruct (Nat.ltb_spec (cpu_count `min` length grid) 1) as [Hlt|_]; [lia|].
    apply starmap_all_ret. intros [e m] Hin.
    apply list_elem_of_In, in_prod_iff in Hin as [He' Hm'].
    apply list_elem_of_In in He', Hm'.
    destruct (Hok e m He' Hm') as [d Hd].
    unfold worker_all_both_params, g. simpl. by rewrite Hd.
  - rewrite length_map. apply length_prod.
  - intros Hne Hnm. rewrite Hkeys.
    assert (Hinj : Inj (=) (=) (λ p : Q * Q, (Some p.1, Some p.2))).
    { intros [? ?] [? ?] Heq. simpl in Heq. by injection Heq as -> ->. }
    apply (NoDup_fmap_2 _). by apply NoDup_list_prod.
  - intros -> -> _. by rewrite Hkeys.
Qed.

Lemma multiprocess_all_grid_witness :
  ∃ records,
    multiprocess_all constant_analysis 8 [0; 1#2]%Q [0; 1#2]%Q 1 10 10 2
      = Ret records ∧
    length records = length [0; 1#2]%Q * length [0; 1#2]%Q ∧
    map record_key records =
      map (λ p, (Some p.1, Some p.2)) (list_prod [0; 1#2]%Q [0; 1#2]%Q) ∧
    (NoDup [0; 1#2]%Q → NoDup [0; 1#2]%Q → NoDup (map record_key records)) ∧
    ([0; 1#2]%Q = [0; 1#2]%Q → [0; 1#2]%Q = [0; 1#2]%Q → 1 = 1 →
     map record_key records =
       [(Some 0, Some 0); (Some 0, Some (1#2));
        (Some (1#2), Some 0); (Some (1#2), Some (1#2))]%Q).
Proof.
  apply (multiprocess_all_grid constant_analysis 8 [0; 1#2]%Q [0; 1#2]%Q
           1 10 10 2).
  - lia.
  - done.
  - done.
  - intros epsilon mu _ _. eexists. reflexivity.
Defined.

(** C1 as stated fails: in the sweep of four points whose analysis
    raises at the one point (0.5, 0.5), the three other points have a
    result of their own, and [multiprocess_all] raises: it returns no
    result list and no record of the failing point. *)
Lemma multiprocess_all_one_failure_aborts :
  worker_all_both_params analysis_failing_at_half 0 0 1 10 10 2
    = Ret {["mu" := 0%Q; "epsilon" := 0%Q; "variance" := (1#12)%Q]} ∧
  worker_all_both_params analysis_failing_at_half 0 (1#2) 1 10 10 2
    = Ret {["mu" := (1#2)%Q; "epsilon" := 0%Q; "variance" := (1#12)%Q]} ∧
  worker_all_both_params analysis_failing_at_half (1#2) 0 1 10 10 2
    = Ret {["mu" := 0%Q; "epsilon" := (1#2)%Q; "variance" := (1#12)%Q]} ∧
  worker_all_both_params analysis_failing_at_half (1#2) (1#2) 1 10 10 2
    = Raise (OtherError "run failed") ∧
  multiprocess_all analysis_failing_at_half 8 [0; 1#2]%Q [0; 1#2]%Q 1 10 10 2
    = Raise (OtherError "run failed") ∧
  ¬ ∃ records,
      multiprocess_all analysis_failing_at_half 8 [0; 1#2]%Q [0; 1#2]%Q
        1 10 10 2 = Ret records.
Proof.
  repeat split; try reflexivity.
  intros [records H]. vm_compute in H. congruence.
Qed.

(** C1, amended: when the analysis raises at a parameter point of the
    sweep, [multiprocess_all] raises the exception of a failing point and
    returns no result list; the failure of one point aborts the sweep. *)
Theorem multiprocess_all_failure_propagates combined_analysis cpu_count
    (epsilon_values mu_values : list Q) n_runs n_nodes time_steps m_ba
    epsilon mu e :
  1 ≤ cpu_count →
  epsilon ∈ epsilon_values → mu ∈ mu_values →
  combined_analysis n_runs n_nodes time_steps epsilon mu m_ba = Raise e →
  ∃ epsilon' mu' e',
    epsilon' ∈ epsilon_values ∧ mu' ∈ mu_values ∧
    combined_analysis n_runs n_nodes time_steps epsilon' mu' m_ba = Raise e' ∧
    multiprocess_all combined_analysis cpu_count epsilon_values mu_values
      n_runs n_nodes time_steps m_ba = Raise e' ∧
    ¬ ∃ records,
        multiprocess_all combined_analysis cpu_count epsilon_values mu_values
          n_runs n_nodes time_steps m_ba = Ret records.
Proof.
  intros Hcpu He Hm Hfail.
  set (f := λ p : Q * Q,
         worker_all_both_params combined_analysis p.1 p.2
           n_runs n_nodes time_steps m_ba).
  assert (Hin : (epsilon, mu) ∈ list_prod epsilon_values mu_values).
  { apply list_elem_of_In, in_prod_iff. by rewrite <- !list_elem_of_In. }
  assert (Hf : f (epsilon, mu) = Raise e).
  { unfold f, worker_all_both_params. simpl. by rewrite Hfail. }
  destruct (starmap_raise f _ _ _ Hin Hf) as ([e1 m1] & e' & Hin' & Hf' & Hs).
  apply list_elem_of_In, in_prod_iff in Hin' as [He1 Hm1].
  apply list_elem_of_In in He1, Hm1.
  assert (Hrun : multiprocess_all combined_analysis cpu_count epsilon_values
            mu_values n_runs n_nodes time_steps m_ba = Raise e').
  { unfold multiprocess_all.
    assert (Hlen : length (list_prod epsilon_values mu_values) ≠ 0).
    { intros Hz. apply length_zero_iff_nil in Hz. rewrite Hz in Hin.
      by apply elem_of_nil in Hin. }
    destruct (Nat.ltb_spec
      (cpu_count `min` length (list_prod epsilon_values mu_values)) 1)
      as [Hlt|_]; [lia|]. exact Hs. }
  exists e1, m1, e'. split; [done|]. split; [done|]. split.
  - unfold f, worker_all_both_params in Hf'. simpl in Hf'.
    destruct (combined_analysis n_runs n_nodes time_steps e1 m1 m_ba);
      [done|by injection Hf' as ->].
  - split; [done|]. intros [records Hr]. congruence.
Qed.

Lemma multiprocess_all_failure_propagates_witness :
  ∃ epsilon' mu' e',
    epsilon' ∈ [0; 1#2]%Q ∧ mu' ∈ [0; 1#2]%Q ∧
    analysis_failing_at_half 1 10 10 epsilon' mu' 2 = Raise e' ∧
    multiprocess_all analysis_failing_at_half 8 [0; 1#2]%Q [0; 1#2]%Q
      1 10 10 2 = Raise e' ∧
    ¬ ∃ records,
        multiprocess_all analysis_failing_at_half 8 [0; 1#2]%Q [0; 1#2]%Q
          1 10 10 2 = Ret records.
Proof.
  apply (multiprocess_all_failure_propagates analysis_failing_at_half 8
           [0; 1#2]%Q [0; 1#2]%Q 1 10 10 2 (1#2)%Q (1#2)%Q
           (OtherError "run failed")).
  - lia.
  - right. left.
  - right. left.
  - reflexivity.
Defined.

End SweepFacts.

(** ** The checks of [run_sim] *)

Section CheckFacts.
Import Sim.
Local Open Scope Q_scope.

(** On integers the checks are the documented ones. *)
Lemma run_sim_checks_int (n t : Z) (epsilon mu : Q) :
  run_sim_checks (PyInt n) (PyInt t) epsilon mu = Ret tt ↔
  (1 < n)%Z ∧ (1 < t)%Z ∧ 0 <= mu <= 1 ∧ 0 <= epsilon <= 1.
Proof.
  unfold run_sim_checks, py_gt_int, isinstance_int.
  change (Z.land 1 (Z.b2z true)) with 1%Z.
  destruct (Z.ltb_spec 1 n), (Z.ltb_spec 1 t); simpl;
    try (split; [done|lia]).
  qcases; (split; [try done|]).
  all: try (intros _; repeat split; (lia || lra)).
  all: intros (_ & _ & [? ?] & [? ?]); try done; exfalso; lra.
Qed.

(** A run whose checks fail raises the assertion and nothing else
    happens: no state is returned. *)
Lemma run_sim_checks_fail gen N T epsilon mu m_ba s e :
  run_sim_checks N T epsilon mu = Raise e →
  run_sim gen N T epsilon mu m_ba s = Fail e.
Proof. unfold run_sim, bind. by intros ->. Qed.

(** C2 fails on the code: the checks accept the floats N = 2.5 and
    N = 0.5, and the float T = 2.5; with T = 2.5 the graph is created and
    copied before [range(T)] raises a [TypeError], which is not an
    assertion of the checks. *)
Theorem run_sim_checks_accept_floats :
  run_sim_checks (PyFloat (5#2)) (PyInt 2) (1#2) (1#2) = Ret tt ∧
  run_sim_checks (PyFloat (1#2)) (PyInt 2) (1#2) (1#2) = Ret tt ∧
  run_sim_checks (PyInt 3) (PyFloat (5#2)) (1#2) (1#2) = Ret tt ∧
  (∃ g s1 gi s2,
     initialize_graph path_generator (PyInt 3) 2 fresh_state = Done g s1 ∧
     Nx.copy g s1 = Done gi s2 ∧
     py_range (PyFloat (5#2)) s2 = Fail TypeError) ∧
  run_sim path_generator (PyInt 3) (PyFloat (5#2)) (1#2) (1#2) 2 fresh_state
    = Fail TypeError.
Proof.
  split; [reflexivity|]. split; [reflexivity|]. split; [reflexivity|].
  split; [|vm_compute; reflexivity].
  eexists _, _, _, _.
  split; [vm_compute; reflexivity|].
  split; [vm_compute; reflexivity|]. reflexivity.
Qed.

End CheckFacts.

(** * Further properties of the code *)

(** ** The opinion adjustment rule *)

Section OpinionMore.
Import Opinion.
Local Open Scope Q_scope.








(** X4: the periodic distance of two opinions is at most one half in
    absolute value and changes sign when the opinions are exchanged; so
    with epsilon above one half every pair of opinions assimilates. *)
Theorem periodic_dist_half (i j mu epsilon : Q) :
  0 <= i <= 1 → 0 <= j <= 1 →
  ∃ a b, periodic_dist i j = Ret a ∧ periodic_dist j i = Ret b ∧
    b == - a ∧ Qabs a <= 1#2 ∧
    (1#2 < epsilon →
     UCM_adjust_opinion i j mu epsilon =
       Ret (i + mu * (j - i), j + mu * (i - j))).
Proof.
  intros Hi Hj.
  assert (Hx : -1 <= i - j <= 1) by lra.
  destruct (rho_defined (i - j) Hx) as (k & Hk & _).
  pose proof (rho_opp (i - j) k Hx Hk) as Hk'.
  assert (Hk'' : rho (j - i) = Ret (Some (- k)%Z)).
  { rewrite <- Hk'. unfold rho, Qleb, Qltb.
    assert (He : j - i == - (i - j)) by ring. by rewrite !He. }
  exists (i - j - inject_Z k), (j - i - inject_Z (- k)).
  rewrite (periodic_dist_eq _ _ _ Hk), (periodic_dist_eq _ _ _ Hk'').
  split; [done|]. split; [done|].
  split; [rewrite inject_Z_opp; ring|].
  assert (Habs : Qabs (i - j - inject_Z k) <= 1#2).
  { apply Qabs_Qle_condition.
    destruct (rho_cases (i - j) Hx) as [[Hc E]|[[Hc E]|[Hc E]]];
      rewrite E in Hk; injection Hk as <-; unfold inject_Z; lra. }
  split; [done|]. intros Heps.
  rewrite (UCM_adjust_opinion_unfold i j mu epsilon k (- k) Hi Hj Hk Hk'').
  assert (E : Qltb (Qabs (i - j - inject_Z k)) epsilon = true)
    by (apply Qltb_lt; lra).
  by rewrite E.
Qed.

Lemma periodic_dist_half_witness :
  ∃ a b, periodic_dist (1#10) (9#10) = Ret a ∧
    periodic_dist (9#10) (1#10) = Ret b ∧
    b == - a ∧ Qabs a <= 1#2 ∧
    (1#2 < 6#10 →
     UCM_adjust_opinion (1#10) (9#10) (1#3) (6#10) =
       Ret ((1#10) + (1#3) * ((9#10) - (1#10)),
            (9#10) + (1#3) * ((1#10) - (9#10)))).
Proof. apply (periodic_dist_half (1#10) (9#10) (1#3) (6#10)); lra. Defined.

End OpinionMore.

(** ** The sweeps *)

Section SweepMore.
Import Sweep Variance.

Lemma starmap_lookup {A B} (f : A → res B) args bs i a :
  starmap f args = Ret bs → args !! i = Some a →
  ∃ b, bs !! i = Some b ∧ f a = Ret b.
Proof.
  revert bs i. induction args as [|x args IH]; intros bs i; simpl; [done|].
  destruct (f x) as [y|] eqn:Ex; simpl; [|done].
  destruct (starmap f args) as [ys|] eqn:Es; simpl; [|done].
  intros [= <-] Hi. destruct i as [|i]; simpl in *.
  - injection Hi as <-. eauto.
  - by apply IH.
Qed.

Lemma starmap_length {A B} (f : A → res B) args bs :
  starmap f args = Ret bs → length bs = length args.
Proof.
  revert bs. induction args as [|x args IH]; intros bs; simpl.
  - by intros [= <-].
  - destruct (f x); simpl; [|done].
    destruct (starmap f args); simpl; [|done].
    intros [= <-]. simpl. f_equal. by apply IH.
Qed.

Lemma list_prod_lookup {A B} (l : list A) (k : list B) i j x y :
  l !! i = Some x → k !! j = Some y →
  list_prod l k !! (i * length k + j) = Some (x, y).
Proof.
  revert i. induction l as [|a l IH]; intros i Hi Hj; [done|].
  simpl. destruct i as [|i]; simpl in *.
  - injection Hi as ->. rewrite lookup_app_l.
    + change (map (λ y0, (x, y0)) k) with ((λ y0, (x, y0)) <$> k).
      by rewrite list_lookup_fmap, Hj.
    + rewrite length_map. by eapply lookup_lt_Some.
  - rewrite lookup_app_r; rewrite length_map; [|lia].
    replace (length k + i * length k + j - length k) with (i * length k + j)
      by lia.
    by apply IH.
Qed.

Lemma list_prod_nil_r {A B} (l : list A) : list_prod l (@nil B) = [].
Proof. induction l; simpl; auto. Qed.

(** X5: [multiprocess_all] raises a [ValueError] when the list of epsilon
    values or the list of mu values is empty, whatever the analysis is:
    the pool would have no process. *)
Theorem multiprocess_all_empty combined_analysis cpu_count
    (values : list Q) n_runs n_nodes time_steps m_ba :
  multiprocess_all combined_analysis cpu_count [] values
    n_runs n_nodes time_steps m_ba = Raise ValueError ∧
  multiprocess_all combined_analysis cpu_count values []
    n_runs n_nodes time_steps m_ba = Raise ValueError.
Proof.
  unfold multiprocess_all. rewrite list_prod_nil_r. simpl.
  by rewrite Nat.min_0_r.
Qed.

(** X6: in the list that [multiprocess_all] returns, the record at index
    i * len(mu_values) + j is that of the i-th epsilon and the j-th mu: it
    carries them under the keys epsilon and mu, and every other key holds
    what the analysis returned for that point. *)
Theorem multiprocess_all_record_at combined_analysis cpu_count
    (epsilon_values mu_values : list Q) n_runs n_nodes time_steps m_ba
    records i j epsilon mu :
  multiprocess_all combined_analysis cpu_count epsilon_values mu_values
    n_runs n_nodes time_steps m_ba = Ret records →
  epsilon_values !! i = Some epsilon → mu_values !! j = Some mu →
  ∃ d r,
    combined_analysis n_runs n_nodes time_steps epsilon mu m_ba = Ret d ∧
    records !! (i * length mu_values + j) = Some r ∧
    r !! "epsilon" = Some epsilon ∧ r !! "mu" = Some mu ∧
    ∀ key, key ≠ "epsilon" → key ≠ "mu" → r !! key = d !! key.
Proof.
  unfold multiprocess_all. intros Hrun Hi Hj.
  destruct (_ <? 1)%nat; [done|].
  pose proof (list_prod_lookup _ _ _ _ _ _ Hi Hj) as Hp.
  destruct (starmap_lookup _ _ _ _ _ Hrun Hp) as (r & Hr & Hw).
  unfold worker_all_both_params in Hw. simpl in Hw.
  destruct (combined_analysis n_runs n_nodes time_steps epsilon mu m_ba)
    as [d|] eqn:Ed; [|done].
  simpl in Hw. injection Hw as <-. exists d. eexists.
  split; [done|]. split; [exact Hr|].
  split; [by rewrite lookup_insert_ne, lookup_insert_eq|].
  split; [by rewrite lookup_insert_eq|].
  intros key H1 H2. by rewrite !lookup_insert_ne.
Qed.

Lemma multiprocess_all_record_at_witness :
  ∃ d r,
    constant_analysis 1 10 10 (1#2) 0 2 = Ret d ∧
    ([ {["mu" := 0%Q; "epsilon" := 0%Q; "variance" := (1#12)%Q]};
       {["mu" := (1#2)%Q; "epsilon" := 0%Q; "variance" := (1#12)%Q]};
       {["mu" := 0%Q; "epsilon" := (1#2)%Q; "variance" := (1#12)%Q]};
       {["mu" := (1#2)%Q; "epsilon" := (1#2)%Q; "variance" := (1#12)%Q]} ]
       : list (gmap string Q))
      !! (1 * length [0; 1#2]%Q + 0) = Some r ∧
    r !! "epsilon" = Some (1#2)%Q ∧ r !! "mu" = Some 0%Q ∧
    ∀ key, key ≠ "epsilon" → key ≠ "mu" → r !! key = d !! key.
Proof.
  apply (multiprocess_all_record_at constant_analysis 8
           [0; 1#2]%Q [0; 1#2]%Q 1 10 10 2 _ 1 0 (1#2)%Q 0%Q);
    reflexivity.
Defined.

(** X7: [multiprocess_variance_epsilon] returns one variance per epsilon
    value, in the order of the input: the i-th result is what
    [opinions_variance(10, 200, 100, epsilon_i, 0.48, m_ba)] returned. *)
Theorem multiprocess_variance_epsilon_aligned opinions_variance cpu_count
    (epsilon_values : list Q) m_ba variances :
  multiprocess_variance_epsilon opinions_variance cpu_count
    epsilon_values m_ba = Ret variances →
  length variances = length epsilon_values ∧
  ∀ i epsilon, epsilon_values !! i = Some epsilon →
    ∃ v, variances !! i = Some v ∧
      opinions_variance 10 200 100 epsilon (48#100)%Q m_ba = Ret v.
Proof.
  unfold multiprocess_variance_epsilon. intros Hrun.
  destruct (_ <? 1)%nat; [done|]. split; [by eapply starmap_length|].
  intros i epsilon Hi.
  destruct (starmap_lookup _ _ _ _ _ Hrun Hi) as (v & Hv & Hw).
  exists v. split; [done|]. unfold worker_variance_epsilons in Hw.
  by destruct (opinions_variance 10 200 100 epsilon (48 # 100)%Q m_ba).
Qed.

Lemma multiprocess_variance_epsilon_aligned_witness :
  length [(0 * (48#100))%Q; ((1#2) * (48#100))%Q] = length [0; 1#2]%Q ∧
  ∀ i epsilon, [0; 1#2]%Q !! i = Some epsilon →
    ∃ v, [(0 * (48#100))%Q; ((1#2) * (48#100))%Q] !! i = Some v ∧
      sample_variance 10 200 100 epsilon (48#100)%Q 2 = Ret v.
Proof.
  apply (multiprocess_variance_epsilon_aligned sample_variance 8
           [0; 1#2]%Q 2). reflexivity.
Defined.

(** X8: [multiprocess_variance_epsilon] raises a [ValueError] on an empty
    list of epsilon values, and when the variance of an epsilon value
    raises it raises the exception of a failing value and returns no
    list. *)
Theorem multiprocess_variance_epsilon_errors opinions_variance cpu_count
    (epsilon_values : list Q) m_ba :
  multiprocess_variance_epsilon opinions_variance cpu_count [] m_ba
    = Raise ValueError ∧
  (1 ≤ cpu_count →
   ∀ epsilon e, epsilon ∈ epsilon_values →
     opinions_variance 10 200 100 epsilon (48#100)%Q m_ba = Raise e →
     ∃ epsilon' e', epsilon' ∈ epsilon_values ∧
       opinions_variance 10 200 100 epsilon' (48#100)%Q m_ba = Raise e' ∧
       multiprocess_variance_epsilon opinions_variance cpu_count
         epsilon_values m_ba = Raise e').
Proof.
  split.
  { unfold multiprocess_variance_epsilon. simpl. by rewrite Nat.min_0_r. }
  intros Hcpu epsilon e Hin Hfail.
  set (f := λ epsilon, worker_variance_epsilons opinions_variance epsilon m_ba).
  assert (Hf : f epsilon = Raise e).
  { unfold f, worker_variance_epsilons. by rewrite Hfail. }
  destruct (starmap_raise f _ _ _ Hin Hf) as (e1 & e' & Hin' & Hf' & Hs).
  exists e1, e'. split; [done|]. split.
  - unfold f, worker_variance_epsilons in Hf'.
    by destruct (opinions_variance 10 200 100 e1 (48 # 100)%Q m_ba).
  - unfold multiprocess_variance_epsilon.
    assert (Hlen : length epsilon_values ≠ 0).
    { intros Hz. apply length_zero_iff_nil in Hz. rewrite Hz in Hin.
      by apply elem_of_nil in Hin. }
    destruct (Nat.ltb_spec (cpu_count `min` length epsilon_values) 1)
      as [Hlt|_]; [lia|]. exact Hs.
Qed.

Lemma multiprocess_variance_epsilon_errors_witness :
  multiprocess_variance_epsilon sample_variance 8 [] 2 = Raise ValueError ∧
  ∃ epsilon' e', epsilon' ∈ [0; -(1#2); 1#2]%Q ∧
    sample_variance 10 200 100 epsilon' (48#100)%Q 2 = Raise e' ∧
    multiprocess_variance_epsilon sample_variance 8
      [0; -(1#2); 1#2]%Q 2 = Raise e'.
Proof.
  destruct (multiprocess_variance_epsilon_errors sample_variance 8
              [0; -(1#2); 1#2]%Q 2) as [H1 H2].
  split; [exact H1|].
  apply (H2 ltac:(lia) (-(1#2))%Q ValueError).
  - right. left.
  - reflexivity.
Defined.

End SweepMore.

(** ** The simulation *)

Section SimMore.
Import Sim.

Lemma omap_incident_nil node (es : list (nat * nat)) :
  (∀ e, e ∈ es → e.1 ≠ node ∧ e.2 ≠ node) →
  omap (Nx.incident node) es = [].
Proof.
  induction es as [|e es IH]; intros Hes; [done|]. simpl.
  destruct (Hes e) as [H1 H2]; [left|].
  unfold Nx.incident at 1. rewrite !decide_False by done.
  apply IH. intros e' He'. apply Hes. by right.
Qed.

Lemma get_graph_eval g s G : graph_at s g G → get_graph g s = Done G s.
Proof. unfold graph_at, get_graph. by intros ->. Qed.

Lemma neighbors_eval g n s G :
  graph_at s g G → n ∈ map fst (g_node G) →
  Nx.neighbors g n s = Done (omap (Nx.incident n) (elements (g_adj G))) s.
Proof.
  intros HG Hn. unfold Nx.neighbors, bind. rewrite (get_graph_eval _ _ _ HG).
  by apply node_loc_is_Some in Hn as [l ->].
Qed.

(** X9: a node without neighbors is skipped: processing it returns the
    state as it was, no draw consumed and nothing written. *)
Theorem process_node_isolated g epsilon mu node s G :
  graph_at s g G → node ∈ map fst (g_node G) →
  (∀ e, e ∈ g_adj G → e.1 ≠ node ∧ e.2 ≠ node) →
  process_node g epsilon mu node s = Done tt s.
Proof.
  intros HG Hnode Hiso. unfold process_node, bind.
  rewrite (neighbors_eval _ _ _ _ HG Hnode).
  rewrite omap_incident_nil; [done|].
  intros e He. apply Hiso. by apply elem_of_elements.
Qed.

Lemma process_node_isolated_witness :
  process_node 0 (1#10) (1#2) 0 lone_state = Done tt lone_state.
Proof.
  eapply (process_node_isolated 0 (1#10) (1#2) 0 lone_state).
  - vm_compute. reflexivity.
  - vm_compute. left.
  - intros e He. exfalso.
    by apply (not_elem_of_empty (C:=gset (nat * nat)) e).
Defined.

Lemma run_sim_checks_outcome N T epsilon mu :
  run_sim_checks N T epsilon mu = Ret tt ∨
  ∃ msg, run_sim_checks N T epsilon mu = Raise (AssertionError msg).
Proof.
  unfold run_sim_checks.
  repeat match goal with
         | |- context [if ?b then _ else _] => destruct b
         end; eauto.
Qed.

(** X10: on integers N and T, when N <= 1, T <= 1, or mu or epsilon is
    outside [0,1], [run_sim] fails an assertion whatever the generator and
    the state are, before anything else happens; every other integer input
    passes the four checks. *)
Theorem run_sim_rejects_invalid_integers (n t : Z) (epsilon mu : Q) :
  (¬ ((1 < n)%Z ∧ (1 < t)%Z ∧ (0 <= mu <= 1)%Q ∧ (0 <= epsilon <= 1)%Q) →
   ∃ msg, ∀ gen m_ba s,
     run_sim gen (PyInt n) (PyInt t) epsilon mu m_ba s
       = Fail (AssertionError msg)) ∧
  ((1 < n)%Z ∧ (1 < t)%Z ∧ (0 <= mu <= 1)%Q ∧ (0 <= epsilon <= 1)%Q →
   run_sim_checks (PyInt n) (PyInt t) epsilon mu = Ret tt).
Proof.
  pose proof (run_sim_checks_int n t epsilon mu) as Hint.
  split; [|apply Hint]. intros Hn.
  destruct (run_sim_checks_outcome (PyInt n) (PyInt t) epsilon mu)
    as [Hok|[msg Hbad]].
  - exfalso. by apply Hn, Hint.
  - exists msg. intros gen m_ba s. by apply run_sim_checks_fail.
Qed.

Lemma run_sim_rejects_invalid_integers_witness :
  (∃ msg, ∀ gen m_ba s,
     run_sim gen (PyInt 1) (PyInt 5) (1#2) (1#2) m_ba s
       = Fail (AssertionError msg)) ∧
  run_sim_checks (PyInt 2) (PyInt 2) 1 0 = Ret tt.
Proof.
  split.
  - apply (proj1 (run_sim_rejects_invalid_integers 1 5 (1#2) (1#2))). lia.
  - apply (proj2 (run_sim_rejects_invalid_integers 2 2 1 0)).
    repeat split; (lia || lra).
Defined.

(** X11: with a float T, [run_sim] never returns its two graphs: when the
    checks pass and the graph is created and copied, [range(T)] raises a
    [TypeError]. *)
Theorem run_sim_float_T_never_returns gen N (q : Q) epsilon mu m_ba s :
  (∀ p s', run_sim gen N (PyFloat q) epsilon mu m_ba s ≠ Done p s') ∧
  (∀ g s1 gi s2,
     run_sim_checks N (PyFloat q) epsilon mu = Ret tt →
     initialize_graph gen N m_ba s = Done g s1 →
     Nx.copy g s1 = Done gi s2 →
     run_sim gen N (PyFloat q) epsilon mu m_ba s = Fail TypeError).
Proof.
  split.
  - intros [g gi] s' H. apply run_sim_done in H as (_ & s1 & s2 & ts & _ & _ & H & _).
    done.
  - intros g s1 gi s2 Hc Hi Hcp. unfold run_sim, bind.
    rewrite Hc. simpl. unfold ret. by rewrite Hi, Hcp.
Qed.

Lemma run_sim_float_T_never_returns_witness :
  run_sim path_generator (PyInt 3) (PyFloat (5#2)) (1#2) (1#2) 2 fresh_state
    = Fail TypeError.
Proof.
  eapply (proj2 (run_sim_float_T_never_returns path_generator (PyInt 3)
                   (5#2) (1#2) (1#2) 2 fresh_state)).
  - reflexivity.
  - vm_compute. reflexivity.
  - vm_compute. reflexivity.
Defined.

(** X12: the two graphs that [run_sim] returns are distinct objects that
    share no attribute dictionary: writing to one can never be seen
    through the other. *)
Theorem run_sim_graphs_apart gen N T epsilon mu m_ba s g gi s' :
  run_sim gen N T epsilon mu m_ba s = Done (g, gi) s' →
  g ≠ gi ∧
  ∃ G Gi, graph_at s' g G ∧ graph_at s' gi Gi ∧
    ∀ l, footprint gi Gi l → ¬ footprint g G l.
Proof.
  intros (_ & s1 & s2 & ts & Hinit & Hcopy & _ & Hloop)%run_sim_done.
  destruct (initialize_graph_done _ _ _ _ _ _ Hinit)
    as (n & es & G1 & _ & HG1 & Hok1 & _).
  destruct (copy_done _ _ _ _ _ Hcopy HG1 Hok1)
    as (Gi & HGi & HG2 & _ & _ & Hdisj & _).
  pose proof (time_loop_evolves _ _ _ _ _ _ _ HG2 Hloop) as Hev.
  destruct (evolves_frame _ _ _ _ _ _ Hev HG2 HGi Hdisj) as [HGi' _].
  destruct Hev as (Ga & Gb & Ha & Hb & Hn & _).
  assert (Ga = G1) as -> by eauto using graph_at_inj.
  split.
  - intros ->. apply (Hdisj gi); by left.
  - exists Gb, Gi. split; [done|]. split; [done|].
    intros l Hl Hl'. apply (Hdisj l Hl).
    unfold footprint in *. by rewrite <- Hn.
Qed.

Lemma run_sim_graphs_apart_witness :
  0 ≠ 9 ∧
  ∃ G Gi, graph_at scenario_final 0 G ∧ graph_at scenario_final 9 Gi ∧
    ∀ l, footprint 9 Gi l → ¬ footprint 0 G l.
Proof.
  apply (run_sim_graphs_apart path_generator (PyInt 4) (PyInt 2)
           (1#10) (1#2) 2 (scenario_state scenario_draws) 0 9 scenario_final).
  vm_compute. reflexivity.
Defined.

(** *** Opinions stay in the unit interval *)

Lemma UCM_result_unit i j mu epsilon p :
  Opinion.UCM_adjust_opinion i j mu epsilon = Ret p →
  (0 <= mu <= 1)%Q →
  (0 <= p.1 <= 1)%Q ∧ (0 <= p.2 <= 1)%Q.
Proof.
  intros Hp Hmu.
  assert (Hij : (0 <= i <= 1 ∧ 0 <= j <= 1)%Q).
  { unfold Opinion.UCM_adjust_opinion in Hp.
    destruct (Qleb 0 i) eqn:E1, (Qleb i 1) eqn:E2; simpl in Hp; try done.
    destruct (Qleb 0 j) eqn:E3, (Qleb j 1) eqn:E4; simpl in Hp; try done.
    apply Qleb_le in E1, E2, E3, E4. done. }
  destruct Hij as [Hi Hj].
  destruct (rho_defined (i - j)) as (k & Hk & _); [lra|].
  destruct (rho_defined (j - i)) as (k' & Hk' & _); [lra|].
  rewrite (UCM_adjust_opinion_unfold i j mu epsilon k k' Hi Hj Hk Hk') in Hp.
  destruct (Qltb _ epsilon); injection Hp as <-; simpl.
  - split; nra.
  - split; apply clamp01_bounds.
Qed.

Lemma write_opinion_keeps s G l0 d0 v n :
  heap s !! l0 = Some (ODict d0) → (0 <= v <= 1)%Q →
  node_opinion_ok s G n →
  node_opinion_ok
    (set_heap (<[l0:=ODict (<["opinion":=v]> d0)]> (heap s)) s) G n.
Proof.
  intros Hl0 Hv (l & d & o & Hn & Hl & Hd & Ho).
  destruct (decide (l = l0)) as [->|Hne].
  - exists l0, (<["opinion":=v]> d0), v. simpl.
    by rewrite !lookup_insert_eq.
  - exists l, d, o. simpl. by rewrite lookup_insert_ne.
Qed.

Lemma write_opinion_sets s G l0 d0 v n :
  node_loc n (g_node G) = Some l0 → (0 <= v <= 1)%Q →
  node_opinion_ok
    (set_heap (<[l0:=ODict (<["opinion":=v]> d0)]> (heap s)) s) G n.
Proof.
  intros Hn Hv. exists l0, (<["opinion":=v]> d0), v. simpl.
  by rewrite !lookup_insert_eq.
Qed.

Lemma put_graph_keeps_opinion s g G G' n :
  graph_at s g G → g_node G' = g_node G →
  node_opinion_ok s G n →
  node_opinion_ok (set_heap (<[g:=OGraph G']> (heap s)) s) G' n.
Proof.
  intros HG Hn (l & d & o & Hl & Hd & Ho & Hu).
  exists l, d, o. simpl. rewrite Hn. split; [done|].
  rewrite lookup_insert_ne; [done|]. unfold graph_at in HG. congruence.
Qed.

Lemma set_attr_opinions g n v s s' G :
  Nx.set_attr g n "opinion" v s = Done tt s' →
  graph_at s g G → (0 <= v <= 1)%Q → opinions_ok s G →
  graph_at s' g G ∧ opinions_ok s' G.
Proof.
  intros (G0 & l & d & HG0 & Hl & Hd & ->)%set_attr_done HG Hv Hok.
  split.
  - unfold graph_at in *. simpl. rewrite lookup_insert_ne; [done|]. congruence.
  - intros m Hm. apply write_opinion_keeps; auto.
Qed.

(** One node of a sweep keeps the opinions in [0,1]. *)
Lemma process_node_opinions g epsilon mu node s s' G :
  graph_at s g G → opinions_ok s G → (0 <= mu <= 1)%Q →
  process_node g epsilon mu node s = Done tt s' →
  ∃ G', graph_at s' g G' ∧ g_node G' = g_node G ∧ opinions_ok s' G'.
Proof.
  unfold process_node. intros HG Hok Hmu H.
  run_step H as nbrs s1 H1.
  apply neighbors_done in H1 as (-> & G0 & HG0 & Hnode & _).
  assert (G0 = G) as -> by eauto using graph_at_inj.
  destruct nbrs as [|? ?].
  { apply ret_done in H as [_ ->]. eauto. }
  run_step H as nbrs' s2 H2. apply neighbors_done in H2 as (-> & _).
  run_step H as neighbor s3 H3.
  apply random_choice_done in H3 as (_ & Hh3 & _).
  run_step H as i s4 H4. apply get_attr_done in H4 as ->.
  run_step H as j s5 H5. apply get_attr_done in H5 as ->.
  run_step H as new s6 H6. apply lift_done in H6 as [Hucm ->].
  destruct (UCM_result_unit _ _ _ _ _ Hucm Hmu) as [Hn1 Hn2].
  assert (HG3 : graph_at s3 g G) by (unfold graph_at in *; congruence).
  assert (Hok3 : opinions_ok s3 G).
  { intros m Hm. destruct (Hok m Hm) as (l & d & o & ? & ? & ? & ?).
    exists l, d, o. by rewrite Hh3. }
  run_step H as u1 s7 H7. destruct u1.
  destruct (set_attr_opinions _ _ _ _ _ _ H7 HG3 Hn1 Hok3) as [HG7 Hok7].
  run_step H as u2 s8 H8. destruct u2.
  destruct (set_attr_opinions _ _ _ _ _ _ H8 HG7 Hn2 Hok7) as [HG8 Hok8].
  destruct (Opinion.rewire_cond new.1 new.2 epsilon).
  2: { apply ret_done in H as [_ ->]. eauto. }
  run_step H as ns s9 H9. apply nodes_done in H9 as (-> & G8 & HG8' & ->).
  assert (G8 = G) as -> by eauto using graph_at_inj.
  run_step H as w0 s10 H10.
  apply random_choice_done in H10 as (Hw0 & Hh10 & _).
  run_step H as w s11 H11.
  apply redraw_done in H11 as (Hh11 & Hne & Hw).
  assert (HG11 : graph_at s11 g G) by (unfold graph_at in *; congruence).
  assert (Hok11 : opinions_ok s11 G).
  { intros m Hm. destruct (Hok8 m Hm) as (l & d & o & ? & ? & ? & ?).
    exists l, d, o. by rewrite Hh11, Hh10. }
  assert (Hwin : w ∈ map fst (g_node G)).
  { destruct Hw as [->|(G' & HG' & Hin)]; [done|].
    unfold graph_at in *. rewrite Hh10 in HG'.
    assert (G' = G) as -> by congruence. done. }
  destruct (rewire_done _ _ _ _ _ _ _ H HG11 Hnode Hwin) as [_ ->].
  eexists. split; [unfold graph_at; simpl; apply lookup_insert_eq|].
  split; [done|]. intros m Hm. simpl in Hm.
  apply (put_graph_keeps_opinion s11 g G); [done|done|by apply Hok11].
Qed.

Lemma for_each_invariant {A} (I : state → Prop) (body : A → M unit) l s s' :
  (∀ x s s', I s → body x s = Done tt s' → I s') →
  I s → for_each l body s = Done tt s' → I s'.
Proof.
  intros Hbody. revert s. induction l as [|x l IH]; intros s HI; simpl.
  - by intros [_ ->]%ret_done.
  - intros H. run_step H as u s1 H1. destruct u. eauto.
Qed.

(** The graph at [g] has the nodes [ns] and opinions in [0,1]. *)
Lemma sweep_opinions g epsilon mu ns s s' :
  (0 <= mu <= 1)%Q →
  (∃ G, graph_at s g G ∧ g_node G = ns ∧ opinions_ok s G) →
  sweep g epsilon mu s = Done tt s' →
  ∃ G, graph_at s' g G ∧ g_node G = ns ∧ opinions_ok s' G.
Proof.
  intros Hmu (G & HG & Hns & Hok). unfold sweep. intros H.
  run_step H as nodes s1 H1. apply nodes_done in H1 as (-> & _).
  run_step H as order s2 H2. apply shuffle_from_done in H2.
  eapply (for_each_invariant
            (λ st, ∃ G, graph_at st g G ∧ g_node G = ns ∧ opinions_ok st G));
    [| |exact H].
  - intros x sa sb (Ga & HGa & Hna & Hoka) Hstep.
    destruct (process_node_opinions _ _ _ _ _ _ _ HGa Hoka Hmu Hstep)
      as (Gb & HGb & Hnb & Hokb).
    exists Gb. split; [done|]. split; [congruence|done].
  - exists G. split; [unfold graph_at in *; congruence|]. split; [done|].
    intros m Hm. destruct (Hok m Hm) as (l & d & o & ? & ? & ? & ?).
    exists l, d, o. by rewrite H2.
Qed.

Lemma time_loop_opinions g epsilon mu ts ns s s' :
  (0 <= mu <= 1)%Q →
  (∃ G, graph_at s g G ∧ g_node G = ns ∧ opinions_ok s G) →
  time_loop g epsilon mu ts s = Done tt s' →
  ∃ G, graph_at s' g G ∧ g_node G = ns ∧ opinions_ok s' G.
Proof.
  intros Hmu HI. unfold time_loop. intros H.
  apply (for_each_invariant
           (λ st, ∃ G, graph_at st g G ∧ g_node G = ns ∧ opinions_ok st G)
           (λ _ : nat, sweep g epsilon mu) ts s s'); [|exact HI|exact H].
  intros x sa sb HI' Hstep. by apply (sweep_opinions g epsilon mu ns sa sb).
Qed.

Lemma uniform_opinions_done ns s ops s' :
  Forall (λ r, 0 <= r <= 1)%Q (reals s) →
  map_m (λ node, r <- random_uniform 0 1 ;; ret (node, r)) ns s
    = Done ops s' →
  heap s' = heap s ∧ map fst ops = ns ∧
  Forall (λ nv : nat * Q, 0 <= nv.2 <= 1)%Q ops.
Proof.
  revert s ops. induction ns as [|n ns IH]; intros s ops Hr; simpl.
  - intros [-> ->]%ret_done. by repeat split.
  - intros H. run_step H as y s1 H1. run_step H as ys s2 H2.
    apply ret_done in H as [-> ->].
    run_step H1 as r s0 H0. apply ret_done in H1 as [-> ->].
    unfold random_uniform in H0. run_step H0 as r0 sr Hd.
    apply ret_done in H0 as [-> ->].
    unfold draw_real in Hd. destruct (reals s) as [|x xs] eqn:Er; [done|].
    injection Hd as <- <-. apply Forall_cons in Hr as [Hx Hxs].
    apply IH in H2 as (Hh & Hk & Hv); [|exact Hxs]. simpl in Hh.
    split; [done|]. split; [simpl; by f_equal|].
    constructor; [simpl; lra|done].
Qed.

Lemma set_node_attributes_opinions g values s s' G :
  Nx.set_node_attributes g values "opinion" s = Done tt s' →
  graph_at s g G →
  Forall (λ nv : nat * Q, 0 <= nv.2 <= 1)%Q values →
  graph_at s' g G ∧
  ∀ n, n ∈ map fst (g_node G) →
    n ∈ map fst values ∨ node_opinion_ok s G n →
    node_opinion_ok s' G n.
Proof.
  unfold Nx.set_node_attributes.
  revert s. induction values as [|[n0 v0] values IH]; intros s; simpl.
  - intros [_ ->]%ret_done HG _. split; [done|].
    intros n _ [Hin|Hok]; [by apply elem_of_nil in Hin|done].
  - intros H HG Hv. apply Forall_cons in Hv as [Hv0 Hv]. simpl in Hv0.
    run_step H as u s1 H1. destruct u.
    run_step H1 as G0 s0 H0. apply get_graph_done in H0 as [-> HG0].
    assert (G0 = G) as -> by eauto using graph_at_inj.
    destruct (node_loc n0 (g_node G)) as [l|] eqn:El.
    + run_step H1 as d s2 H2. apply get_dict_done in H2 as [-> Hd].
      unfold put_dict in H1. injection H1 as <-.
      destruct (IH _ H) as [HG' Hall]; [|done|].
      { unfold graph_at in *. simpl. rewrite lookup_insert_ne; [done|].
        congruence. }
      split; [done|]. intros n Hn Hcase. apply Hall; [done|].
      destruct Hcase as [[->|Hin]%elem_of_cons|Hok].
      * right. by apply write_opinion_sets.
      * by left.
      * right. by apply write_opinion_keeps.
    + apply ret_done in H1 as [_ ->].
      destruct (IH _ H HG Hv) as [HG' Hall].
      split; [done|]. intros n Hn Hcase. apply Hall; [done|].
      destruct Hcase as [[->|Hin]%elem_of_cons|Hok]; [|by left|by right].
      exfalso. apply node_loc_is_Some in Hn as [l Hl]. simpl in Hl. congruence.
Qed.

Lemma add_node_reals g n s s' :
  Nx.add_node g n s = Done tt s' → reals s' = reals s.
Proof.
  unfold Nx.add_node. intros H. run_step H as G s0 H0.
  apply get_graph_done in H0 as [-> _].
  destruct (node_loc n (g_node G)).
  - by apply ret_done in H as [_ ->].
  - run_step H as l s1 H1. apply alloc_done in H1 as (_ & _ & ->).
    unfold put_graph in H. by injection H as <-.
Qed.

Lemma add_edge_reals g u v s s' :
  Nx.add_edge g u v s = Done tt s' → reals s' = reals s.
Proof.
  unfold Nx.add_edge. intros H.
  run_step H as u1 s1 H1. destruct u1. apply add_node_reals in H1.
  run_step H as u2 s2 H2. destruct u2. apply add_node_reals in H2.
  run_step H as G s3 H3. apply get_graph_done in H3 as [-> _].
  unfold put_graph in H. injection H as <-. simpl. congruence.
Qed.

Lemma build_reals n es s g s' :
  Nx.build n es s = Done g s' → reals s' = reals s.
Proof.
  unfold Nx.build. intros H.
  run_step H as g0 s1 H1. apply alloc_done in H1 as (_ & _ & ->).
  run_step H as u1 s2 H2. destruct u1.
  run_step H as u2 s3 H3. destruct u2.
  apply ret_done in H as [_ ->].
  apply (for_each_invariant (λ st, reals st = reals s)) in H2;
    [|intros x sa sb Ha Hx; apply add_node_reals in Hx; congruence|done].
  apply (for_each_invariant (λ st, reals st = reals s)) in H3;
    [done|intros x sa sb Ha Hx; apply add_edge_reals in Hx; congruence|done].
Qed.

Lemma initialize_graph_opinions gen N m_ba s g s' :
  Forall (λ r, 0 <= r <= 1)%Q (reals s) →
  initialize_graph gen N m_ba s = Done g s' →
  ∃ G, graph_at s' g G ∧ dicts_ok s' G ∧ opinions_ok s' G.
Proof.
  intros Hr Hinit.
  destruct (initialize_graph_done _ _ _ _ _ _ Hinit)
    as (n & es & G' & _ & HG' & Hok' & _).
  exists G'. split; [done|]. split; [done|].
  unfold initialize_graph in Hinit.
  run_step Hinit as t s1 H1. apply lift_done in H1 as [_ ->].
  run_step Hinit as g0 s2 H2. pose proof (build_reals _ _ _ _ _ H2) as Hr2.
  run_step Hinit as ns s3 H3. apply nodes_done in H3 as (-> & G & HG & ->).
  run_step Hinit as ops s4 H4.
  apply uniform_opinions_done in H4 as (Hh4 & Hk4 & Hv4); [|by rewrite Hr2].
  run_step Hinit as u s5 H5. destruct u. apply ret_done in Hinit as [-> ->].
  assert (HG4 : graph_at s4 g0 G) by (unfold graph_at in *; congruence).
  destruct (set_node_attributes_opinions _ _ _ _ _ H5 HG4 Hv4) as [HG5 Hall].
  assert (G' = G) as -> by eauto using graph_at_inj.
  intros m Hm. apply Hall; [done|]. left. by rewrite Hk4.
Qed.

Lemma run_sim_checks_mu N T epsilon mu :
  run_sim_checks N T epsilon mu = Ret tt → (0 <= mu <= 1)%Q.
Proof.
  unfold run_sim_checks.
  destruct (negb (py_gt_int N _)); [done|].
  destruct (negb (py_gt_int T _)); [done|].
  destruct (Qleb 0 mu) eqn:E1, (Qleb mu 1) eqn:E2; simpl; try done.
  intros _. by apply Qleb_le in E1, E2.
Qed.

(** X13: when the uniform draws are in [0,1], every node of the graph
    has an opinion in [0,1] right after initialisation, after every node
    that a sweep processes, after any number of time steps, and when
    [run_sim] returns: the assertions of [UCM_adjust_opinion] can never
    fail during a run. *)
Theorem run_sim_opinions_in_unit_interval gen N T epsilon mu m_ba s g gi s' :
  Forall (λ r, 0 <= r <= 1)%Q (reals s) →
  run_sim gen N T epsilon mu m_ba s = Done (g, gi) s' →
  (∃ s1 G1, initialize_graph gen N m_ba s = Done g s1 ∧
     graph_at s1 g G1 ∧ opinions_ok s1 G1) ∧
  (∀ node sa sb Ga,
     graph_at sa g Ga → opinions_ok sa Ga →
     process_node g epsilon mu node sa = Done tt sb →
     ∃ Gb, graph_at sb g Gb ∧ opinions_ok sb Gb) ∧
  ∃ G, graph_at s' g G ∧ opinions_ok s' G.
Proof.
  intros Hr (Hc & s1 & s2 & ts & Hinit & Hcopy & _ & Hloop)%run_sim_done.
  pose proof (run_sim_checks_mu _ _ _ _ Hc) as Hmu.
  destruct (initialize_graph_opinions _ _ _ _ _ _ Hr Hinit)
    as (G1 & HG1 & Hd1 & Hok1).
  destruct (copy_done _ _ _ _ _ Hcopy HG1 Hd1)
    as (Gi & _ & HG2 & _ & _ & _ & Hsame).
  split; [eauto|]. split.
  - intros node sa sb Ga HGa Hoka Hstep.
    destruct (process_node_opinions _ _ _ _ _ _ _ HGa Hoka Hmu Hstep)
      as (Gb & ? & _ & ?). eauto.
  - destruct (time_loop_opinions g epsilon mu ts (g_node G1) s2 s' Hmu)
      as (G & HG & _ & Hok); [|done|eauto].
    exists G1. split; [done|]. split; [done|].
    intros m Hm. destruct (Hok1 m Hm) as (l & d & o & Hl & Hh & Ho & Hu).
    exists l, d, o. split; [done|]. split; [|done].
    rewrite Hsame; [done|]. apply elem_of_dom. eauto.
Qed.

Lemma run_sim_opinions_in_unit_interval_witness :
  (∃ s1 G1, initialize_graph path_generator (PyInt 4) 2
              (scenario_state scenario_draws) = Done 0 s1 ∧
     graph_at s1 0 G1 ∧ opinions_ok s1 G1) ∧
  (∀ node sa sb Ga,
     graph_at sa 0 Ga → opinions_ok sa Ga →
     process_node 0 (1#10) (1#2) node sa = Done tt sb →
     ∃ Gb, graph_at sb 0 Gb ∧ opinions_ok sb Gb) ∧
  ∃ G, graph_at scenario_final 0 G ∧ opinions_ok scenario_final G.
Proof.
  apply (run_sim_opinions_in_unit_interval path_generator (PyInt 4)
           (PyInt 2) (1#10) (1#2) 2 (scenario_state scenario_draws)
           0 9 scenario_final).
  - repeat constructor; simpl; lra.
  - vm_compute. reflexivity.
Defined.

End SimMore.
